(** * A rogue DHCP responder: model of [rogue_dhcp_server.py] and its properties

    The program listens for DHCP Discover and Request broadcasts and answers
    them with Offer and Ack frames built from its configuration.  Its state is
    an ordered pool of free addresses and a dictionary from client hardware
    address to the address last handed to it.

    The model follows the Python text: the methods of [RogueDHCPServer] are
    written in a small state-and-exception monad over the responder object,
    the frames passed to [sendp] and the log; the library calls whose result
    depends on the machine (the interface's hardware address, the link, the
    configuration file, the C library's address parser, the exceptions the
    installed scapy catches in its capture loop) are fields of a [Platform]
    record, so that every theorem holds whatever they answer. *)

From Stdlib Require Import NArith ZArith String Ascii List Lia.
From Stdlib Require Import DecimalN DecimalZ.
From Stdlib Require DecimalString HexadecimalString.
From stdpp Require Import base option list gmap strings.

Local Open Scope string_scope.
Local Open Scope list_scope.

(** ** Python values, exceptions and results *)

(** The exception classes that the program can meet.  [socket.error] is
    [OSError]; [AddressValueError] and [NetmaskValueError] are [ValueError]s;
    the errors of [configparser] are gathered in [ConfigparserError]. *)
Inductive exn_class :=
  | SystemExit | KeyboardInterrupt
  | OSError | ValueError | IndexError | KeyError | TypeError
  | ConfigparserError.

(** An exception object: its class and the text [str(e)] gives. *)
Record exn := Exn { exn_cls : exn_class; exn_str : string }.

(** [isinstance(e, Exception)]: all but the two classes that derive from
    [BaseException] directly. *)
Definition is_Exception (e : exn) : bool :=
  match exn_cls e with
  | SystemExit | KeyboardInterrupt => false
  | _ => true
  end.

(** [isinstance(e, socket.error)]. *)
Definition is_socket_error (e : exn) : bool :=
  match exn_cls e with
  | OSError => true
  | _ => false
  end.

Inductive result (A : Type) :=
  | Ok (a : A)
  | Raise (e : exn).
Arguments Ok {A} a.
Arguments Raise {A} e.

(** A value inside a DHCP option: scapy gives integers and strings. *)
Inductive pyval :=
  | VInt (n : Z)
  | VStr (s : string).

Global Instance pyval_eq_dec : EqDecision pyval.
Proof. solve_decision. Defined.

(** [v == n] for an integer literal [n]. *)
Definition pyval_eq_int (v : pyval) (n : Z) : bool :=
  match v with
  | VInt m => (m =? n)%Z
  | VStr _ => false
  end.

(** [range(start, stop)], empty when [stop <= start]. *)
Definition range (start stop : N) : list N :=
  (λ i, (start + N.of_nat i)%N) <$> seq 0 (N.to_nat (stop - start)).

(** [str(n)] for a natural number and for an integer. *)
Definition str_N (n : N) : string :=
  DecimalString.NilEmpty.string_of_uint (N.to_uint n).
Definition str_Z (z : Z) : string :=
  DecimalString.NilEmpty.string_of_int (Z.to_int z).

(** [sep.join(l)]. *)
Fixpoint join (sep : string) (l : list string) : string :=
  match l with
  | [] => ""
  | [x] => x
  | x :: r => x +:+ sep +:+ join sep r
  end.

(** [s.split(c)] for a one-character separator: never empty. *)
Fixpoint split (c : ascii) (s : string) : list string :=
  match s with
  | EmptyString => [""]
  | String a r =>
      if Ascii.eqb a c then "" :: split c r
      else match split c r with
           | [] => [String a ""]
           | w :: ws => String a w :: ws
           end
  end.

(** [c.isspace()] on the characters below 256. *)
Definition isspace (c : ascii) : bool :=
  let n := N_of_ascii c in
  ((9 <=? n) && (n <=? 13) || (28 <=? n) && (n <=? 32)
   || (n =? 133) || (n =? 160))%N.

Fixpoint lstrip (s : string) : string :=
  match s with
  | String a r => if isspace a then lstrip r else s
  | EmptyString => EmptyString
  end.

Fixpoint rstrip (s : string) : string :=
  match s with
  | EmptyString => EmptyString
  | String a r =>
      match rstrip r with
      | EmptyString => if isspace a then EmptyString else String a EmptyString
      | r' => String a r'
      end
  end.

(** [s.strip()]. *)
Definition strip (s : string) : string := rstrip (lstrip s).

(** ** The part of [ipaddress] the responder uses

    The responder calls [ipaddress.ip_network(ip_pool, strict=False)],
    [network.hosts()] and [str(ip)].  The definitions follow the standard
    library's [IPv4Network]: an address is its 32-bit integer;
    [ip_network] reads an address and a prefix length from the string (the
    reading itself is the platform's, see [Platform]) and clears the host
    bits; [hosts] is the method of the base class except for the prefix
    lengths 31 and 32, for which the constructor installs another one.
    IPv6 pools are outside the model. *)
Module ipaddress.

Definition IPV4LENGTH : N := 32.
Definition ALL_ONES : N := 2 ^ IPV4LENGTH - 1.

Definition ip_int_from_prefix (prefixlen : N) : N :=
  N.lxor ALL_ONES (N.shiftr ALL_ONES prefixlen).

Record IPv4Network := {
  network_address : N;
  netmask : N;
  prefixlen : N;
  addr : N  (* the address as written, kept for the /32 case of [hosts] *)
}.

(** [IPv4Network(address, strict=False)] once the text is read as
    [packed] and [plen]. *)
Definition IPv4Network_new (packed plen : N) : IPv4Network :=
  let mask := ip_int_from_prefix plen in
  {| network_address :=
       if negb (N.land packed mask =? packed)%N then N.land packed mask
       else packed;
     netmask := mask;
     prefixlen := plen;
     addr := packed |}.

Definition hostmask (n : IPv4Network) : N := N.lxor (netmask n) ALL_ONES.

Definition broadcast_address (n : IPv4Network) : N :=
  N.lor (network_address n) (hostmask n).

(** [iter(network)]: every address of the block. *)
Definition iter (n : IPv4Network) : list N :=
  range (network_address n) (broadcast_address n + 1).

(** [network.hosts()]: the constructor replaces the method for the
    prefix lengths 31 and 32. *)
Definition hosts (n : IPv4Network) : list N :=
  if (prefixlen n =? IPV4LENGTH - 1)%N then iter n
  else if (prefixlen n =? IPV4LENGTH)%N then [addr n]
  else range (network_address n + 1) (broadcast_address n).

(** [ip_int.to_bytes(4, 'big')]. *)
Definition to_bytes4 (ip_int : N) : list N :=
  [ (ip_int / 2 ^ 24) mod 256; (ip_int / 2 ^ 16) mod 256;
    (ip_int / 2 ^ 8) mod 256; ip_int mod 256 ]%N.

(** [str(IPv4Address(ip_int))]: dotted decimal. *)
Definition string_from_ip_int (ip_int : N) : string :=
  join "." (str_N <$> to_bytes4 ip_int).

End ipaddress.

(** ** Frames, as scapy presents them

    A frame is a stack of optional layers.  Only the fields the program reads
    or sets are kept; the others take scapy's defaults. *)
Module Ether.
Record t := Build { src : string; dst : string }.
End Ether.

Module IP.
Record t := Build { src : string; dst : string }.
End IP.

Module UDP.
Record t := Build { sport : Z; dport : Z }.
End UDP.

Module BOOTP.
Record t := Build {
  op : Z;
  xid : Z;
  yiaddr : string;
  siaddr : string;
  chaddr : string  (* bytes *)
}.
End BOOTP.

(** An entry of [DHCP.options]: a pair [(name, value)] or a bare name such as
    ["end"]. *)
Inductive dhcp_option :=
  | Opt (name : string) (value : pyval)
  | Marker (name : string).

Module DHCP.
Record t := Build { options : list dhcp_option }.
End DHCP.

Record Packet := {
  layer_Ether : option Ether.t;
  layer_IP : option IP.t;
  layer_UDP : option UDP.t;
  layer_BOOTP : option BOOTP.t;
  layer_DHCP : option DHCP.t
}.

(** [packet[Layer]]: an [IndexError] when the layer is absent. *)
Definition getlayer {L : Type} (name : string) (l : option L) : result L :=
  match l with
  | Some x => Ok x
  | None => Raise (Exn IndexError ("Layer [" +:+ name +:+ "] not found"))
  end.

(** [o[1]] for an entry of the option list: the value of a pair, the second
    character of a bare name. *)
Definition item1 (o : dhcp_option) : result pyval :=
  match o with
  | Opt _ v => Ok v
  | Marker (String _ (String c _)) => Ok (VStr (String c ""))
  | Marker _ => Raise (Exn IndexError "string index out of range")
  end.

(** [packet[DHCP].options[0][1]]. *)
Definition first_option_value (packet : Packet) : result pyval :=
  match getlayer "DHCP" (layer_DHCP packet) with
  | Raise e => Raise e
  | Ok d =>
      match DHCP.options d with
      | [] => Raise (Exn IndexError "list index out of range")
      | o :: _ => item1 o
      end
  end.

(** ** What the machine and the libraries answer *)
Record Platform := {
  (** [socket.inet_aton(ip)]: the packed address, or the exception raised. *)
  inet_aton : string → result string;
  (** the address and the prefix length [ipaddress.ip_network] reads from a
      string, or the exception it raises. *)
  ip_network_read : string → result (N * N);
  ip_network_read_range : ∀ s a p,
    ip_network_read s = Ok (a, p) → (a < 2 ^ 32 ∧ p ≤ 32)%N;
  (** [get_if_hwaddr(iface)]. *)
  get_if_hwaddr : string → result string;
  (** [mac2str(mac)]: the raw bytes of a hardware address. *)
  mac2str : string → result string;
  (** the exception [sendp] raises for a frame, given the frames already
      sent; [None] when the frame goes out. *)
  sendp_fault : list Packet → Packet → option exn;
  (** [config.read(path)] and then [config.get] and [config.getint] on the
      parser. *)
  config_read : string → option exn;
  config_get : string → string → string → result string;
  config_getint : string → string → string → result Z;
  (** what scapy's [sniff] lets out of its loop: an exception raised by the
      callback, and one raised by the socket it reads.  Which ones it does
      depends on the version of scapy (from 2.6.0 on it catches every
      [Exception] of the callback, warns and drops the socket); in every
      version the loop sits in [try ... except KeyboardInterrupt: pass]. *)
  callback_fault_escapes : exn → bool;
  capture_fault_escapes : exn → bool;
  callback_interrupt_swallowed : ∀ e,
    exn_cls e = KeyboardInterrupt → callback_fault_escapes e = false;
  capture_interrupt_swallowed : ∀ e,
    exn_cls e = KeyboardInterrupt → capture_fault_escapes e = false
}.

Inductive level := INFO | ERROR.

(** The dictionary [load_config] returns. *)
Module config.
Record t := Build {
  interface : string;
  ip_pool : string;
  subnet_mask : string;
  gateway : string;
  dns_servers : list string;
  lease_time : Z
}.
End config.

Module RogueDHCPServer.

Record t := Build {
  interface : string;
  ip_pool : string;
  subnet_mask : string;
  gateway : string;
  dns_servers : list string;
  lease_time : Z;
  allocated_ips : gmap string string;
  server_ip : string;
  available_ips : list string
}.

Definition set_available_ips (v : list string) (s : t) : t :=
  Build (interface s) (ip_pool s) (subnet_mask s) (gateway s)
        (dns_servers s) (lease_time s) (allocated_ips s) (server_ip s) v.

Definition set_allocated_ips (v : gmap string string) (s : t) : t :=
  Build (interface s) (ip_pool s) (subnet_mask s) (gateway s)
        (dns_servers s) (lease_time s) v (server_ip s) (available_ips s).

(** The responder object, the frames given to [sendp] and the log lines,
    both oldest first. *)
Record world := World {
  self : t;
  wire : list Packet;
  log : list (level * string)
}.

(** Computations of the methods: they may change the world and may raise;
    what was changed before an exception stays changed. *)
Definition M (A : Type) : Type := world → result A * world.

Definition ret {A} (a : A) : M A := λ w, (Ok a, w).

Definition bind {A B} (m : M A) (k : A → M B) : M B :=
  λ w, match m w with
       | (Ok a, w') => k a w'
       | (Raise e, w') => (Raise e, w')
       end.

Definition lift {A} (r : result A) : M A := λ w, (r, w).

Definition get_self : M t := λ w, (Ok (self w), w).

Definition modify_self (f : t → t) : M unit :=
  λ w, (Ok tt, World (f (self w)) (wire w) (log w)).

Definition logger (l : level) (msg : string) : M unit :=
  λ w, (Ok tt, World (self w) (wire w) (log w ++ [(l, msg)])).

Declare Scope py_scope.
Delimit Scope py_scope with py.
Notation "x <- m ;; k" := (bind m (λ x, k))
  (at level 100, m at next level, right associativity) : py_scope.
Notation "m ;;; k" := (bind m (λ _, k))
  (at level 100, right associativity) : py_scope.
Local Open Scope py_scope.

Section WithPlatform.
Variable E : Platform.

(** [sendp(frame, iface=..., verbose=0)]. *)
Definition sendp (frame : Packet) : M unit :=
  λ w, match sendp_fault E (wire w) frame with
       | Some e => (Raise e, w)
       | None => (Ok tt, World (self w) (wire w ++ [frame]) (log w))
       end.

Definition is_valid_ip (ip : string) : result bool :=
  match inet_aton E ip with
  | Ok _ => Ok true
  | Raise e => if is_socket_error e then Ok false else Raise e
  end.

(** [[ip for ip in l if is_valid_ip(ip)]]. *)
Fixpoint valid_entries (l : list string) : result (list string) :=
  match l with
  | [] => Ok []
  | ip :: r =>
      match is_valid_ip ip with
      | Raise e => Raise e
      | Ok b =>
          match valid_entries r with
          | Raise e => Raise e
          | Ok r' => Ok (if b then ip :: r' else r')
          end
      end
  end.

Definition __init__ (interface ip_pool subnet_mask gateway : string)
    (dns_servers : list string) (lease_time : Z) : result t :=
  match ip_network_read E ip_pool with
  | Raise e => Raise e
  | Ok (packed, plen) =>
      let network := ipaddress.IPv4Network_new packed plen in
      Ok {| interface := interface;
            ip_pool := ip_pool;
            subnet_mask := subnet_mask;
            gateway := gateway;
            dns_servers := dns_servers;
            lease_time := lease_time;
            allocated_ips := ∅;
            server_ip := gateway;
            available_ips :=
              ipaddress.string_from_ip_int <$> ipaddress.hosts network |}
  end.

(** [packet.haslayer(DHCP) and packet[DHCP].options[0][1] == n]. *)
Definition dhcp_type_is (packet : Packet) (n : Z) : result bool :=
  match layer_DHCP packet with
  | None => Ok false
  | Some _ =>
      match first_option_value packet with
      | Raise e => Raise e
      | Ok v => Ok (pyval_eq_int v n)
      end
  end.

(** The reply both handlers build; [kind] is ["offer"] or ["ack"]. *)
Definition reply (s : t) (hw : string) (transaction_id : Z)
    (your_ip : string) (chaddr : string) (kind : string)
    (valid_dns : list string) : Packet :=
  {| layer_Ether := Some (Ether.Build hw "ff:ff:ff:ff:ff:ff");
     layer_IP := Some (IP.Build (server_ip s) "255.255.255.255");
     layer_UDP := Some (UDP.Build 67 68);
     layer_BOOTP :=
       Some (BOOTP.Build 2 transaction_id your_ip (server_ip s) chaddr);
     layer_DHCP :=
       Some (DHCP.Build
         [ Opt "message-type" (VStr kind);
           Opt "server_id" (VStr (server_ip s));
           Opt "subnet_mask" (VStr (subnet_mask s));
           Opt "router" (VStr (gateway s));
           Opt "name_server"
             (VStr (match valid_dns with
                    | ip :: _ => ip
                    | [] => gateway s
                    end));
           Opt "lease_time" (VInt (lease_time s));
           Marker "end" ]) |}.

Definition handle_dhcp_discover (packet : Packet) : M unit :=
  c <- lift (dhcp_type_is packet 1) ;;
  if c : bool then
    e <- lift (getlayer "Ether" (layer_Ether packet)) ;;
    let client_mac := Ether.src e in
    b <- lift (getlayer "BOOTP" (layer_BOOTP packet)) ;;
    let transaction_id := BOOTP.xid b in
    logger INFO ("Received DHCP Discover from " +:+ client_mac) ;;;
    s <- get_self ;;
    match available_ips s with
    | [] => ret tt
    | offered_ip :: rest =>
        modify_self (set_available_ips rest) ;;;
        modify_self
          (λ s, set_allocated_ips
                  (<[client_mac := offered_ip]> (allocated_ips s)) s) ;;;
        logger INFO
          ("Offering IP " +:+ offered_ip +:+ " to " +:+ client_mac) ;;;
        s <- get_self ;;
        valid_dns <- lift (valid_entries (dns_servers s)) ;;
        hw <- lift (get_if_hwaddr E (interface s)) ;;
        ch <- lift (mac2str E client_mac) ;;
        let dhcp_offer :=
          reply s hw transaction_id offered_ip ch "offer" valid_dns in
        sendp dhcp_offer
    end
  else ret tt.

Definition handle_dhcp_request (packet : Packet) : M unit :=
  c <- lift (dhcp_type_is packet 3) ;;
  if c : bool then
    e <- lift (getlayer "Ether" (layer_Ether packet)) ;;
    let client_mac := Ether.src e in
    b <- lift (getlayer "BOOTP" (layer_BOOTP packet)) ;;
    let transaction_id := BOOTP.xid b in
    s <- get_self ;;
    match allocated_ips s !! client_mac with
    | None => ret tt
    | Some assigned_ip =>
        logger INFO
          ("Received DHCP Request from " +:+ client_mac +:+ " for IP "
           +:+ assigned_ip) ;;;
        valid_dns <- lift (valid_entries (dns_servers s)) ;;
        hw <- lift (get_if_hwaddr E (interface s)) ;;
        ch <- lift (mac2str E client_mac) ;;
        let dhcp_ack :=
          reply s hw transaction_id assigned_ip ch "ack" valid_dns in
        sendp dhcp_ack ;;;
        logger INFO
          ("Sent DHCP Ack to " +:+ client_mac +:+ " with IP "
           +:+ assigned_ip)
    end
  else ret tt.

Definition process_packet (packet : Packet) : M unit :=
  match layer_DHCP packet with
  | None => ret tt
  | Some _ =>
      message_type <- lift (first_option_value packet) ;;
      if pyval_eq_int message_type 1 then handle_dhcp_discover packet
      else if pyval_eq_int message_type 3 then handle_dhcp_request packet
      else ret tt
  end.

(** What the capture hands to the callback, in order: a frame, or an
    exception raised by the capture itself. *)
Inductive capture :=
  | Captured (packet : Packet)
  | CaptureFault (e : exn).

(** [sniff(iface=..., filter=..., prn=prn, store=0)] over the events seen
    until the capture is stopped from outside.  An exception of the
    callback or of the socket that scapy catches ends the capture: the
    socket is dropped and [sniff] returns normally; one it does not catch
    leaves [sniff]. *)
Fixpoint sniff (prn : Packet → M unit) (events : list capture) : M unit :=
  match events with
  | [] => ret tt
  | Captured packet :: rest =>
      λ w, match prn packet w with
           | (Ok _, w') => sniff prn rest w'
           | (Raise e, w') =>
               if callback_fault_escapes E e then (Raise e, w')
               else (Ok tt, w')
           end
  | CaptureFault e :: _ =>
      if capture_fault_escapes E e then lift (Raise e) else ret tt
  end.

Definition start (events : list capture) : M unit :=
  s <- get_self ;;
  logger INFO
    ("Starting rogue DHCP server on interface " +:+ interface s) ;;;
  logger INFO ("Server IP: " +:+ server_ip s) ;;;
  logger INFO ("IP Pool: " +:+ ip_pool s) ;;;
  logger INFO ("Gateway: " +:+ gateway s) ;;;
  logger INFO ("DNS Servers: " +:+ join ", " (dns_servers s)) ;;;
  logger INFO
    ("Lease Time: " +:+ str_Z (lease_time s) +:+ " seconds") ;;;
  sniff process_packet events.

End WithPlatform.
End RogueDHCPServer.

Section Program.
Variable E : Platform.

Definition load_config (config_file : string) : result config.t :=
  match config_read E config_file with
  | Some e => Raise e
  | None =>
  match config_get E config_file "DHCP" "interface" with
  | Raise e => Raise e
  | Ok interface =>
  match config_get E config_file "DHCP" "ip_pool" with
  | Raise e => Raise e
  | Ok ip_pool =>
  match config_get E config_file "DHCP" "subnet_mask" with
  | Raise e => Raise e
  | Ok subnet_mask =>
  match config_get E config_file "DHCP" "gateway" with
  | Raise e => Raise e
  | Ok gateway =>
  match config_get E config_file "DHCP" "dns_servers" with
  | Raise e => Raise e
  | Ok dns_servers =>
  match config_getint E config_file "DHCP" "lease_time" with
  | Raise e => Raise e
  | Ok lease_time =>
      Ok (config.Build interface ip_pool subnet_mask gateway
            (strip <$> split "," dns_servers) lease_time)
  end end end end end end end.

(** How the process ends: an exit status, or an exception nothing caught. *)
Inductive termination :=
  | Exit (code : Z)
  | Unhandled (e : exn).

Record outcome := Outcome {
  status : termination;
  sent : list Packet;
  logged : list (level * string)
}.

(** The [except Exception as e] clause of the main block. *)
Definition except_Exception (e : exn) (sent : list Packet)
    (log : list (level * string)) : outcome :=
  if is_Exception e then
    Outcome (Exit 1) sent (log ++ [(ERROR, "Error: " +:+ exn_str e)])
  else Outcome (Unhandled e) sent log.

(** The main block, for the configuration path [args.config] and the
    events the capture will see. *)
Definition main (config_file : string)
    (events : list RogueDHCPServer.capture) : outcome :=
  match load_config config_file with
  | Raise e => except_Exception e [] []
  | Ok config =>
      match RogueDHCPServer.__init__ E
              (config.interface config) (config.ip_pool config)
              (config.subnet_mask config) (config.gateway config)
              (config.dns_servers config) (config.lease_time config) with
      | Raise e => except_Exception e [] []
      | Ok server =>
          match RogueDHCPServer.start E events
                  (RogueDHCPServer.World server [] []) with
          | (Raise e, w) =>
              except_Exception e (RogueDHCPServer.wire w)
                (RogueDHCPServer.log w)
          | (Ok _, w) =>
              Outcome (Exit 0) (RogueDHCPServer.wire w)
                (RogueDHCPServer.log w)
          end
      end
  end.

End Program.

(** ** A platform to run the model on

    A machine with one interface, a link on which [fault] decides what
    [sendp] raises, and a configuration file ["config.ini"] whose [DHCP]
    section is [ini].  Addresses are read in plain dotted decimal, the prefix
    as a decimal number. *)
Module Bench.

Definition decimal (s : string) : option N :=
  match s with
  | EmptyString => None
  | _ => N.of_uint <$> DecimalString.NilEmpty.uint_of_string s
  end.

Definition dotted_quad (s : string) : option N :=
  match split "." s with
  | [a; b; c; d] =>
      match decimal a, decimal b, decimal c, decimal d with
      | Some a, Some b, Some c, Some d =>
          if ((a <=? 255) && (b <=? 255) && (c <=? 255) && (d <=? 255))%N
          then Some (((a * 256 + b) * 256 + c) * 256 + d)%N
          else None
      | _, _, _, _ => None
      end
  | _ => None
  end.

Definition read_network (s : string) : result (N * N) :=
  let bad := Raise (Exn ValueError
    ("'" +:+ s +:+ "' does not appear to be an IPv4 or IPv6 network")) in
  match split "/" s with
  | [a; p] =>
      match dotted_quad a, decimal p with
      | Some a, Some p =>
          if ((a <? 2 ^ 32) && (p <=? 32))%N then Ok (a, p) else bad
      | _, _ => bad
      end
  | _ => bad
  end.

Definition aton (s : string) : result string :=
  match dotted_quad s with
  | Some a => Ok (string_of_list_ascii (ascii_of_N <$> ipaddress.to_bytes4 a))
  | None =>
      Raise (Exn OSError "illegal IP address string passed to inet_aton")
  end.

Definition hwaddr (iface : string) : result string :=
  Ok "02:00:00:00:00:01".

(** The six groups of a hardware address, each group one byte. *)
Definition hex_bytes (mac : string) : result string :=
  match mapM (λ g, N.of_hex_uint <$> HexadecimalString.NilEmpty.uint_of_string g)
             (split ":" mac) with
  | Some l => Ok (string_of_list_ascii (ascii_of_N <$> l))
  | None => Raise (Exn ValueError "invalid literal for int() with base 16")
  end.

Definition lookup_key (ini : list (string * string)) (section key : string)
    : result string :=
  if String.eqb section "DHCP" then
    match list_find (λ kv, kv.1 = key) ini with
    | Some (_, (_, v)) => Ok v
    | None =>
        Raise (Exn ConfigparserError
                 ("No option '" +:+ key +:+ "' in section: 'DHCP'"))
    end
  else Raise (Exn ConfigparserError ("No section: '" +:+ section +:+ "'")).

Definition lookup_int (ini : list (string * string)) (section key : string)
    : result Z :=
  match lookup_key ini section key with
  | Raise e => Raise e
  | Ok v =>
      match decimal v with
      | Some n => Ok (Z.of_N n)
      | None =>
          Raise (Exn ValueError
                   ("invalid literal for int() with base 10: '" +:+ v +:+ "'"))
      end
  end.

Lemma read_network_range s a p :
  read_network s = Ok (a, p) → (a < 2 ^ 32 ∧ p ≤ 32)%N.
Proof.
  unfold read_network. intros H.
  repeat case_match; simplify_eq.
  match goal with
  | H : (_ && _) = true |- _ => apply andb_prop in H as [Ha Hp]
  end.
  apply N.ltb_lt in Ha. apply N.leb_le in Hp. done.
Qed.

(** What [sniff] lets out: with [old_scapy], as before scapy 2.6.0, every
    exception of the callback but [KeyboardInterrupt]; otherwise only what
    is not an [Exception]. *)
Definition escapes (old_scapy : bool) (e : exn) : bool :=
  match exn_cls e with
  | KeyboardInterrupt => false
  | _ => old_scapy || negb (is_Exception e)
  end.

Definition escapes_capture (e : exn) : bool := escapes false e.

Lemma escapes_interrupt old_scapy e :
  exn_cls e = KeyboardInterrupt → escapes old_scapy e = false.
Proof. unfold escapes. by intros ->. Qed.

Definition platform_on (old_scapy : bool)
    (fault : list Packet → Packet → option exn)
    (ini : list (string * string)) : Platform :=
  {| inet_aton := aton;
     ip_network_read := read_network;
     ip_network_read_range := read_network_range;
     get_if_hwaddr := hwaddr;
     mac2str := hex_bytes;
     sendp_fault := fault;
     config_read := λ _, None;
     config_get := λ _, lookup_key ini;
     config_getint := λ _, lookup_int ini;
     callback_fault_escapes := escapes old_scapy;
     capture_fault_escapes := escapes_capture;
     callback_interrupt_swallowed := escapes_interrupt old_scapy;
     capture_interrupt_swallowed := escapes_interrupt false |}.

Definition platform (fault : list Packet → Packet → option exn)
    (ini : list (string * string)) : Platform :=
  platform_on false fault ini.

(** The configuration of the end-to-end scenario. *)
Definition ini_50 : list (string * string) :=
  [ ("interface", "eth0"); ("ip_pool", "192.168.50.0/29");
    ("subnet_mask", "255.255.255.248"); ("gateway", "192.168.50.1");
    ("dns_servers", "8.8.8.8"); ("lease_time", "300") ].

Definition link_up : list Packet → Packet → option exn := λ _ _, None.

Definition link_down : list Packet → Packet → option exn :=
  λ _ _, Some (Exn OSError "[Errno 100] Network is down").

(** A frame from [mac] whose first DHCP option is the message type [ty]. *)
Definition inbound (mac : string) (xid ty : Z) : Packet :=
  {| layer_Ether := Some (Ether.Build mac "ff:ff:ff:ff:ff:ff");
     layer_IP := Some (IP.Build "0.0.0.0" "255.255.255.255");
     layer_UDP := Some (UDP.Build 68 67);
     layer_BOOTP := Some (BOOTP.Build 1 xid "0.0.0.0" "0.0.0.0" "");
     layer_DHCP := Some (DHCP.Build [Opt "message-type" (VInt ty); Marker "end"]) |}.

Definition E50 : Platform := platform link_up ini_50.
Definition E50_down : Platform := platform link_down ini_50.
Definition E50_down_old : Platform := platform_on true link_down ini_50.

(** The responder of the scenario, with a DNS list of one's choice. *)
Definition server_with_dns (dns : list string) : RogueDHCPServer.t :=
  RogueDHCPServer.Build "eth0" "192.168.50.0/29" "255.255.255.248"
    "192.168.50.1" dns 300 ∅ "192.168.50.1"
    [ "192.168.50.1"; "192.168.50.2"; "192.168.50.3";
      "192.168.50.4"; "192.168.50.5"; "192.168.50.6" ].

Definition server_50 : RogueDHCPServer.t := server_with_dns ["8.8.8.8"].

Definition client_1 : string := "aa:bb:cc:dd:ee:01".
Definition client_2 : string := "aa:bb:cc:dd:ee:02".

Definition discover_1 : Packet := inbound client_1 7 1.
Definition request_1 : Packet := inbound client_1 9 3.
Definition discover_2 : Packet := inbound client_2 8 1.

End Bench.

(** ** Vocabulary of the properties *)

Import RogueDHCPServer.

(** The three entry points through which a captured frame reaches the
    responder. *)
Inductive handler := Discover | Request | Dispatch.

Definition invoke (E : Platform) (h : handler) : Packet → M unit :=
  match h with
  | Discover => handle_dhcp_discover E
  | Request => handle_dhcp_request E
  | Dispatch => process_packet E
  end.

(** A frame with an Ethernet and a BOOTP layer whose first DHCP option holds
    the message type [ty], sent by [mac] in transaction [x]. *)
Definition dhcp_frame (ty : Z) (mac : string) (x : Z) (p : Packet) : Prop :=
  (∃ v, first_option_value p = Ok v ∧ pyval_eq_int v ty = true)
  ∧ Ether.src <$> layer_Ether p = Some mac
  ∧ BOOTP.xid <$> layer_BOOTP p = Some x.

(** The values of the options called [name] in a frame. *)
Definition option_values (name : string) (f : Packet) : list pyval :=
  match layer_DHCP f with
  | None => []
  | Some d =>
      omap (λ o, match o with
                 | Opt n v => if String.eqb n name then Some v else None
                 | Marker _ => None
                 end) (DHCP.options d)
  end.

(** The message type, address, transaction and client bytes of a reply. *)
Definition message_type (f : Packet) : list pyval :=
  option_values "message-type" f.
Definition your_ip (f : Packet) : option string :=
  BOOTP.yiaddr <$> layer_BOOTP f.
Definition transaction (f : Packet) : option Z :=
  BOOTP.xid <$> layer_BOOTP f.
Definition client_bytes (f : Packet) : option string :=
  BOOTP.chaddr <$> layer_BOOTP f.

Definition is_offer (f : Packet) : bool :=
  bool_decide (message_type f = [VStr "offer"]).
Definition is_ack (f : Packet) : bool :=
  bool_decide (message_type f = [VStr "ack"]).

(** The Offers on the wire, oldest first: the client bytes and the address
    each one carries. *)
Definition offers (wire : list Packet) : list (string * string) :=
  omap (λ f, if is_offer f
             then (λ b, (BOOTP.chaddr b, BOOTP.yiaddr b)) <$> layer_BOOTP f
             else None) wire.

(** [socket.inet_aton] returns for this entry. *)
Definition aton_accepts (E : Platform) (ip : string) : bool :=
  match inet_aton E ip with
  | Ok _ => true
  | Raise _ => false
  end.

(** One handler invocation, whatever it returns or raises. *)
Inductive step (E : Platform) (w : world) : world → Prop :=
  | step_invoke h p : step E w (invoke E h p w).2.

(** The worlds the responder [s0] can be in after any number of
    invocations, starting with nothing sent. *)
Definition reachable (E : Platform) (s0 : t) (w : world) : Prop :=
  ∃ l0, rtc (step E) (World s0 [] l0) w.

(** The platform calls made while a reply is built return, and the link
    takes every frame. *)
Definition reliable (E : Platform) (s : t) (ps : list Packet) : Prop :=
  (∃ vd, valid_entries E (dns_servers s) = Ok vd)
  ∧ (∃ hw, get_if_hwaddr E (interface s) = Ok hw)
  ∧ (∀ p e, p ∈ ps → layer_Ether p = Some e → ∃ ch, mac2str E (Ether.src e) = Ok ch)
  ∧ (∀ sent f, sendp_fault E sent f = None).


(** The reply a handler is about to send, or the exception raised while
    its fields are computed. *)
Definition prepared (E : Platform) (s : t) (mac : string) (x : Z)
    (ip kind : string)
    : result Packet :=
  match valid_entries E (dns_servers s) with
  | Raise e => Raise e
  | Ok vd =>
      match get_if_hwaddr E (interface s) with
      | Raise e => Raise e
      | Ok hw =>
          match mac2str E mac with
          | Raise e => Raise e
          | Ok ch => Ok (reply s hw x ip ch kind vd)
          end
      end
  end.

(** The responder after it took [ip] from the pool for [mac]. *)
Definition allocate (mac ip : string) (rest : list string) (s : t) : t :=
  set_allocated_ips (<[mac := ip]> (allocated_ips s))
    (set_available_ips rest s).

(** The four things an invocation can have done. *)
Inductive effect (E : Platform) (p : Packet) (w w' : world) : Prop :=
  | effect_none :
      self w' = self w → wire w' = wire w → effect E p w w'
  | effect_ack mac x ip f :
      dhcp_frame 3 mac x p →
      allocated_ips (self w) !! mac = Some ip →
      prepared E (self w) mac x ip "ack" = Ok f →
      self w' = self w → wire w' = wire w ++ [f] → effect E p w w'
  | effect_take mac x ip rest :
      dhcp_frame 1 mac x p →
      available_ips (self w) = ip :: rest →
      self w' = allocate mac ip rest (self w) →
      wire w' = wire w → effect E p w w'
  | effect_offer mac x ip rest f :
      dhcp_frame 1 mac x p →
      available_ips (self w) = ip :: rest →
      self w' = allocate mac ip rest (self w) →
      prepared E (self w') mac x ip "offer" = Ok f →
      wire w' = wire w ++ [f] → effect E p w w'.


(** What stays true of a world when [pool0] was the pool at construction:
    the addresses taken so far are a prefix of [pool0]; the table holds
    only taken addresses, none of them twice; the addresses in the Offers
    sent are taken addresses, in the order they were taken. *)
Definition invariant (pool0 : list string) (w : world) : Prop :=
  ∃ taken,
    pool0 = taken ++ available_ips (self w)
    ∧ (∀ mac ip, allocated_ips (self w) !! mac = Some ip → ip ∈ taken)
    ∧ (∀ m1 m2 ip, allocated_ips (self w) !! m1 = Some ip →
                   allocated_ips (self w) !! m2 = Some ip → m1 = m2)
    ∧ (offers (wire w)).*2 `sublist_of` taken.

(** The fields of the responder that no method assigns after
    construction. *)
Definition config_of (s : t) :=
  (interface s, ip_pool s, subnet_mask s, gateway s, dns_servers s,
   lease_time s, server_ip s).

(** A string without a dot. *)
Fixpoint no_dot (s : string) : bool :=
  match s with
  | EmptyString => true
  | String c r => negb (Ascii.eqb c ".") && no_dot r
  end.

(** ** Sample runs *)

(** Seven Discovers, from two clients in turn, for a pool of six. *)
Definition seven_discovers : list Packet :=
  [ Bench.discover_1; Bench.discover_2; Bench.discover_1; Bench.discover_2;
    Bench.discover_1; Bench.discover_2; Bench.discover_1 ].

(** The scenario after a Discover, a second Discover and a Request of the
    first client. *)
Definition world_0 : world := World Bench.server_50 [] [].
Definition world_1 : world :=
  (invoke Bench.E50 Dispatch Bench.discover_1 world_0).2.
Definition world_2 : world :=
  (invoke Bench.E50 Dispatch Bench.discover_1 world_1).2.
Definition world_3 : world :=
  (invoke Bench.E50 Dispatch Bench.request_1 world_2).2.

(** The Offer the first client gets when the DNS list starts with an entry
    that is not an address. *)
Definition offer_with_dns : Packet :=
  reply (Bench.server_with_dns ["not-an-ip"; "8.8.8.8"; "1.1.1.1"])
    "02:00:00:00:00:01" 7 "192.168.50.1"
    (String "170" (String "187" (String "204" (String "221"
       (String "238" (String "001" EmptyString))))))
    "offer" ["8.8.8.8"; "1.1.1.1"].

(** The first client is offered an address, the second client sends a
    Discover, then the first sends its Request. *)
Definition after_offer : world :=
  (process_packet Bench.E50 Bench.discover_1 world_0).2.
Definition before_request : world :=
  (sniff Bench.E50 (process_packet Bench.E50) [Captured Bench.discover_2]
     after_offer).2.
Definition offer_1 : Packet :=
  reply Bench.server_50 "02:00:00:00:00:01" 7 "192.168.50.1"
    (String "170" (String "187" (String "204" (String "221"
       (String "238" (String "001" EmptyString))))))
    "offer" ["8.8.8.8"].

(** The scenario with its pool used up. *)
Definition world_exhausted : world :=
  World (set_available_ips [] Bench.server_50) [] [].

(** The scenario on a machine whose [inet_aton] raises [ValueError] for a
    string with a null character in it, as Python's does. *)
Definition aton_checking_nul (s : string) : result string :=
  if existsb (Ascii.eqb "000"%char) (list_ascii_of_string s)
  then Raise (Exn ValueError "embedded null character")
  else Bench.aton s.

Definition E50_nul : Platform :=
  {| inet_aton := aton_checking_nul;
     ip_network_read := Bench.read_network;
     ip_network_read_range := Bench.read_network_range;
     get_if_hwaddr := Bench.hwaddr;
     mac2str := Bench.hex_bytes;
     sendp_fault := Bench.link_up;
     config_read := λ _, None;
     config_get := λ _, Bench.lookup_key Bench.ini_50;
     config_getint := λ _, Bench.lookup_int Bench.ini_50;
     callback_fault_escapes := Bench.escapes false;
     capture_fault_escapes := Bench.escapes_capture;
     callback_interrupt_swallowed := Bench.escapes_interrupt false;
     capture_interrupt_swallowed := Bench.escapes_interrupt false |}.

(** ** Further vocabulary *)

(** The first exception, in the order of the list, that [is_valid_ip] does
    not turn into [False]. *)
Fixpoint first_fault (E : Platform) (l : list string) : option exn :=
  match l with
  | [] => None
  | ip :: r =>
      match is_valid_ip E ip with
      | Raise e => Some e
      | Ok _ => first_fault E r
      end
  end.

(** The lines [start] logs before it captures. *)
Definition summary (s : t) : list (level * string) :=
  [ (INFO, "Starting rogue DHCP server on interface " +:+ interface s);
    (INFO, "Server IP: " +:+ server_ip s);
    (INFO, "IP Pool: " +:+ ip_pool s);
    (INFO, "Gateway: " +:+ gateway s);
    (INFO, "DNS Servers: " +:+ join ", " (dns_servers s));
    (INFO, "Lease Time: " +:+ str_Z (lease_time s) +:+ " seconds") ].

(** The world after the frames [ps] were given to [process_packet] one
    after the other, when it returned for each of them. *)
Fixpoint handled (E : Platform) (ps : list Packet) (w : world)
    : option world :=
  match ps with
  | [] => Some w
  | p :: r =>
      match process_packet E p w with
      | (Ok _, w') => handled E r w'
      | (Raise _, _) => None
      end
  end.

(** What a reply tells its reader about the network: who the server and
    the router are, the mask and the lease. *)
Definition advertises (gw mask : string) (lease : Z) (f : Packet) : Prop :=
  IP.src <$> layer_IP f = Some gw
  ∧ BOOTP.siaddr <$> layer_BOOTP f = Some gw
  ∧ option_values "server_id" f = [VStr gw]
  ∧ option_values "router" f = [VStr gw]
  ∧ option_values "subnet_mask" f = [VStr mask]
  ∧ option_values "lease_time" f = [VInt lease].

(** The number of occurrences of a character in a string. *)
Fixpoint count_char (c : ascii) (s : string) : nat :=
  match s with
  | EmptyString => 0
  | String a r => (if Ascii.eqb a c then 1 else 0) + count_char c r
  end.

(** A string that neither starts nor ends with white space: stripping it
    on either side gives it back. *)
Definition stripped (s : string) : Prop := lstrip s = s ∧ rstrip s = s.

(** The exception raised by the lookup of a key of the [DHCP] section, as
    [load_config] makes it. *)
Definition lookup_fault (E : Platform) (config_file key : string)
    : option exn :=
  if String.eqb key "lease_time" then
    match config_getint E config_file "DHCP" key with
    | Raise e => Some e
    | Ok _ => None
    end
  else
    match config_get E config_file "DHCP" key with
    | Raise e => Some e
    | Ok _ => None
    end.

(** The keys [load_config] looks up, in its order. *)
Definition config_keys : list string :=
  ["interface"; "ip_pool"; "subnet_mask"; "gateway"; "dns_servers";
   "lease_time"].

(** ** What one invocation does *)

Section Handlers.
Variable E : Platform.
Implicit Types (p : Packet) (w : world) (s : t) (mac ip : string).


Lemma dhcp_type_is_true p n :
  dhcp_type_is p n = Ok true ↔
  ∃ v, first_option_value p = Ok v ∧ pyval_eq_int v n = true.
Proof.
  unfold dhcp_type_is, first_option_value, getlayer.
  destruct (layer_DHCP p) as [d|]; [|split; [done | by intros (? & ? & ?)]].
  destruct (DHCP.options d) as [|o ?];
    [split; [done | by intros (? & ? & ?)]|].
  destruct (item1 o) as [v|]; [|split; [done | by intros (? & ? & ?)]].
  split.
  - intros [= Hv]. eauto.
  - intros (v' & [= <-] & Hv). by rewrite Hv.
Qed.

Lemma dhcp_frame_type ty mac x p :
  dhcp_frame ty mac x p → dhcp_type_is p ty = Ok true.
Proof. intros (Hv & _). by apply dhcp_type_is_true. Qed.

Lemma dhcp_frame_layer ty mac x p :
  dhcp_frame ty mac x p → is_Some (layer_DHCP p).
Proof.
  intros ((v & Hv & _) & _). unfold first_option_value, getlayer in Hv.
  destruct (layer_DHCP p); [eauto | done].
Qed.

Lemma dhcp_frame_unique ty ty' mac mac' x x' p :
  dhcp_frame ty mac x p → dhcp_frame ty' mac' x' p →
  ty = ty' ∧ mac = mac' ∧ x = x'.
Proof.
  intros ((v & Hv & Hty) & He & Hb) ((v' & Hv' & Hty') & He' & Hb').
  rewrite Hv in Hv'. rewrite He in He'. rewrite Hb in Hb'.
  injection Hv' as <-. injection He' as <-. injection Hb' as <-.
  destruct v as [n|]; [|done]. simpl in *.
  apply Z.eqb_eq in Hty, Hty'. by subst.
Qed.

Lemma discover_skip p w :
  dhcp_type_is p 1 ≠ Ok true → (handle_dhcp_discover E p w).2 = w.
Proof.
  intros H. unfold handle_dhcp_discover, bind, lift, ret.
  destruct (dhcp_type_is p 1) as [[]|]; done.
Qed.

Lemma discover_exhausted mac x p w :
  dhcp_frame 1 mac x p → available_ips (self w) = [] →
  handle_dhcp_discover E p w
  = (Ok tt, World (self w) (wire w)
              (log w ++ [(INFO, "Received DHCP Discover from " +:+ mac)])).
Proof.
  intros Hp Hnil. pose proof (dhcp_frame_type _ _ _ _ Hp) as Hty.
  destruct Hp as (_ & He & Hb).
  unfold handle_dhcp_discover, bind, lift, ret, get_self, logger, getlayer.
  rewrite Hty.
  destruct (layer_Ether p) as [e|]; simplify_eq/=.
  destruct (layer_BOOTP p) as [b|]; simplify_eq/=.
  by rewrite Hnil.
Qed.

Lemma discover_allocates mac x p w ip rest :
  dhcp_frame 1 mac x p → available_ips (self w) = ip :: rest →
  let s' := allocate mac ip rest (self w) in
  let l' := log w ++ [(INFO, "Received DHCP Discover from " +:+ mac);
                      (INFO, "Offering IP " +:+ ip +:+ " to " +:+ mac)] in
  handle_dhcp_discover E p w
  = match prepared E s' mac x ip "offer" with
    | Raise e => (Raise e, World s' (wire w) l')
    | Ok f =>
        match sendp_fault E (wire w) f with
        | Some e => (Raise e, World s' (wire w) l')
        | None => (Ok tt, World s' (wire w ++ [f]) l')
        end
    end.
Proof.
  intros Hp Hpool. pose proof (dhcp_frame_type _ _ _ _ Hp) as Hty.
  destruct Hp as (_ & He & Hb).
  unfold handle_dhcp_discover, prepared, allocate, bind, lift, ret,
    get_self, modify_self, logger, sendp, getlayer.
  rewrite Hty.
  destruct (layer_Ether p) as [e|]; simplify_eq/=.
  destruct (layer_BOOTP p) as [b|]; simplify_eq/=.
  rewrite Hpool. simpl. rewrite <- !app_assoc. simpl.
  repeat case_match; simplify_eq/=; done.
Qed.

(** Every outcome of the Discover handler: nothing but log lines, or one
    address moved from the pool to the table and at most one Offer. *)
Lemma discover_effect p w :
  let w' := (handle_dhcp_discover E p w).2 in
  (self w' = self w ∧ wire w' = wire w)
  ∨ ∃ mac x ip rest,
      dhcp_frame 1 mac x p
      ∧ available_ips (self w) = ip :: rest
      ∧ self w' = allocate mac ip rest (self w)
      ∧ (wire w' = wire w
         ∨ ∃ f, prepared E (self w') mac x ip "offer" = Ok f
                ∧ sendp_fault E (wire w) f = None
                ∧ (handle_dhcp_discover E p w).1 = Ok tt
                ∧ wire w' = wire w ++ [f]).
Proof.
  intros w'. subst w'.
  destruct (dhcp_type_is p 1) as [[]|] eqn:Hty;
    [|left; rewrite discover_skip; [done | by rewrite Hty]..].
  destruct (layer_Ether p) as [e|] eqn:He; cycle 1.
  { left. unfold handle_dhcp_discover, bind, lift, getlayer.
    by rewrite Hty, He. }
  destruct (layer_BOOTP p) as [b|] eqn:Hb; cycle 1.
  { left. unfold handle_dhcp_discover, bind, lift, getlayer.
    by rewrite Hty, He, Hb. }
  assert (dhcp_frame 1 (Ether.src e) (BOOTP.xid b) p) as Hp.
  { split; [by apply dhcp_type_is_true|]. by rewrite He, Hb. }
  destruct (available_ips (self w)) as [|ip rest] eqn:Hpool.
  { left. by rewrite (discover_exhausted _ _ _ _ Hp Hpool). }
  right. exists (Ether.src e), (BOOTP.xid b), ip, rest.
  rewrite (discover_allocates _ _ _ _ _ _ Hp Hpool). simpl.
  split_and!; [done..| |].
  { repeat case_match; done. }
  destruct (prepared E _ _ _ _ _) as [f|] eqn:Hf; [|by left].
  destruct (sendp_fault E (wire w) f) eqn:Hlink; [by left|].
  right. exists f. simpl. by rewrite Hf.
Qed.

Lemma request_skip p w :
  dhcp_type_is p 3 ≠ Ok true → (handle_dhcp_request E p w).2 = w.
Proof.
  intros H. unfold handle_dhcp_request, bind, lift, ret.
  destruct (dhcp_type_is p 3) as [[]|]; done.
Qed.

Lemma request_unknown mac x p w :
  dhcp_frame 3 mac x p → allocated_ips (self w) !! mac = None →
  handle_dhcp_request E p w = (Ok tt, w).
Proof.
  intros Hp Hnone. pose proof (dhcp_frame_type _ _ _ _ Hp) as Hty.
  destruct Hp as (_ & He & Hb).
  unfold handle_dhcp_request, bind, lift, ret, get_self, getlayer.
  rewrite Hty.
  destruct (layer_Ether p) as [e|]; simplify_eq/=.
  destruct (layer_BOOTP p) as [b|]; simplify_eq/=.
  by rewrite Hnone.
Qed.

Lemma request_known mac x p w ip :
  dhcp_frame 3 mac x p → allocated_ips (self w) !! mac = Some ip →
  let received :=
    (INFO, "Received DHCP Request from " +:+ mac +:+ " for IP " +:+ ip) in
  let acked :=
    (INFO, "Sent DHCP Ack to " +:+ mac +:+ " with IP " +:+ ip) in
  handle_dhcp_request E p w
  = match prepared E (self w) mac x ip "ack" with
    | Raise e => (Raise e, World (self w) (wire w) (log w ++ [received]))
    | Ok f =>
        match sendp_fault E (wire w) f with
        | Some e => (Raise e, World (self w) (wire w) (log w ++ [received]))
        | None =>
            (Ok tt, World (self w) (wire w ++ [f])
                      (log w ++ [received; acked]))
        end
    end.
Proof.
  intros Hp Hsome. pose proof (dhcp_frame_type _ _ _ _ Hp) as Hty.
  destruct Hp as (_ & He & Hb).
  unfold handle_dhcp_request, prepared, bind, lift, ret,
    get_self, logger, sendp, getlayer.
  rewrite Hty.
  destruct (layer_Ether p) as [e|]; simplify_eq/=.
  destruct (layer_BOOTP p) as [b|]; simplify_eq/=.
  rewrite Hsome. simpl.
  repeat case_match; simplify_eq/=; rewrite <- ?app_assoc; done.
Qed.

(** Every outcome of the Request handler: the responder is as before, and
    at most one Ack went out. *)
Lemma request_effect p w :
  let w' := (handle_dhcp_request E p w).2 in
  self w' = self w
  ∧ (wire w' = wire w
     ∨ ∃ mac x ip f,
         dhcp_frame 3 mac x p
         ∧ allocated_ips (self w) !! mac = Some ip
         ∧ prepared E (self w) mac x ip "ack" = Ok f
         ∧ sendp_fault E (wire w) f = None
         ∧ (handle_dhcp_request E p w).1 = Ok tt
         ∧ wire w' = wire w ++ [f]).
Proof.
  intros w'. subst w'.
  destruct (dhcp_type_is p 3) as [[]|] eqn:Hty;
    [|rewrite request_skip; [by auto | by rewrite Hty]..].
  destruct (layer_Ether p) as [e|] eqn:He; cycle 1.
  { unfold handle_dhcp_request, bind, lift, getlayer.
    rewrite Hty, He. by auto. }
  destruct (layer_BOOTP p) as [b|] eqn:Hb; cycle 1.
  { unfold handle_dhcp_request, bind, lift, getlayer.
    rewrite Hty, He, Hb. by auto. }
  assert (dhcp_frame 3 (Ether.src e) (BOOTP.xid b) p) as Hp.
  { split; [by apply dhcp_type_is_true|]. by rewrite He, Hb. }
  destruct (allocated_ips (self w) !! Ether.src e) as [ip|] eqn:Hm; cycle 1.
  { rewrite (request_unknown _ _ _ _ Hp Hm). by auto. }
  rewrite (request_known _ _ _ _ _ Hp Hm).
  destruct (prepared E _ _ _ _ _) as [f|] eqn:Hf; [|by auto].
  destruct (sendp_fault E (wire w) f) eqn:Hlink; [by auto|].
  split; [done|]. right. exists (Ether.src e), (BOOTP.xid b), ip, f. done.
Qed.

(** The dispatcher runs one of the two handlers or leaves the world as it
    is. *)
Lemma process_packet_cases p w :
  process_packet E p w = handle_dhcp_discover E p w
  ∨ process_packet E p w = handle_dhcp_request E p w
  ∨ (process_packet E p w).2 = w.
Proof.
  unfold process_packet, bind, lift, ret.
  destruct (layer_DHCP p); [|by auto].
  destruct (first_option_value p) as [v|]; [|by auto].
  destruct (pyval_eq_int v 1); [by auto|].
  destruct (pyval_eq_int v 3); by auto.
Qed.

Lemma process_packet_typed ty mac x p w :
  dhcp_frame ty mac x p →
  process_packet E p w
  = if decide (ty = 1%Z) then handle_dhcp_discover E p w
    else if decide (ty = 3%Z) then handle_dhcp_request E p w
    else (Ok tt, w).
Proof.
  intros Hp. destruct (dhcp_frame_layer _ _ _ _ Hp) as [d Hd].
  destruct Hp as ((v & Hv & Hty) & _).
  unfold process_packet, bind, lift, ret. rewrite Hd, Hv.
  destruct v as [n|]; [|done]. simpl in *. apply Z.eqb_eq in Hty as ->.
  repeat case_decide; subst; try done.
  by rewrite !(proj2 (Z.eqb_neq _ _)).
Qed.

Lemma invoke_effect h p w : effect E p w (invoke E h p w).2.
Proof.
  assert (effect E p w (handle_dhcp_discover E p w).2) as Hd.
  { destruct (discover_effect p w)
      as [[??]|(mac & x & ip & rest & ? & ? & ? & [?|(f & ? & ? & ? & ?)])].
    - by apply effect_none.
    - by eapply effect_take.
    - by eapply effect_offer. }
  assert (effect E p w (handle_dhcp_request E p w).2) as Hr.
  { destruct (request_effect p w)
      as [? [?|(mac & x & ip & f & ? & ? & ? & ? & ? & ?)]].
    - by apply effect_none.
    - by eapply effect_ack. }
  destruct h; simpl; [done..|].
  destruct (process_packet_cases p w) as [->|[->| ->]]; [done..|].
  by apply effect_none.
Qed.

Lemma prepared_Ok s mac x ip kind f :
  prepared E s mac x ip kind = Ok f →
  ∃ vd hw ch,
    valid_entries E (dns_servers s) = Ok vd
    ∧ get_if_hwaddr E (interface s) = Ok hw
    ∧ mac2str E mac = Ok ch
    ∧ f = reply s hw x ip ch kind vd.
Proof.
  unfold prepared. intros H. repeat case_match; simplify_eq. eauto 10.
Qed.

Lemma prepared_offer s mac x ip f :
  prepared E s mac x ip "offer" = Ok f →
  is_offer f = true ∧ ∃ ch, layer_BOOTP f = Some (BOOTP.Build 2 x ip (server_ip s) ch).
Proof. intros (vd & hw & ch & _ & _ & _ & ->)%prepared_Ok. eauto. Qed.

Lemma prepared_ack s mac x ip f :
  prepared E s mac x ip "ack" = Ok f →
  is_offer f = false ∧ is_ack f = true.
Proof. by intros (vd & hw & ch & _ & _ & _ & ->)%prepared_Ok. Qed.

End Handlers.

(** ** Networks: masks as arithmetic, the hosts of a block *)

Section Networks.
Import ipaddress.
Local Open Scope N_scope.

Lemma elem_of_range x a b : x ∈ range a b ↔ a ≤ x < b.
Proof.
  unfold range. rewrite list_elem_of_fmap. split.
  - intros (i & -> & Hi). apply elem_of_seq in Hi. lia.
  - intros H. exists (N.to_nat (x - a)). split; [lia|].
    apply elem_of_seq. lia.
Qed.

Lemma NoDup_range a b : NoDup (range a b).
Proof.
  apply NoDup_fmap_2; [|apply NoDup_seq]. intros i j. lia.
Qed.

Lemma length_range a b : length (range a b) = N.to_nat (b - a).
Proof. unfold range. by rewrite length_fmap, length_seq. Qed.


Lemma testbit_above x i : x < 2 ^ 32 → 32 ≤ i → N.testbit x i = false.
Proof.
  intros Hx Hi. destruct (decide (x = 0)) as [->|Hx0]; [apply N.bits_0|].
  apply N.bits_above_log2.
  assert (N.log2 x < 32); [apply N.log2_lt_pow2|]; lia.
Qed.

Ltac bit_cases :=
  repeat match goal with
    | |- context [N.testbit (N.ones ?n) ?i] =>
        first [ rewrite (N.ones_spec_low n i) by lia
              | rewrite (N.ones_spec_high n i) by lia ]
    | |- context [(?a <=? ?b)] => destruct (N.leb_spec a b)
    | |- context [(?a <? ?b)] => destruct (N.ltb_spec a b)
    end.

Lemma mask_testbit p i :
  p ≤ 32 →
  N.testbit (ip_int_from_prefix p) i = (32 - p <=? i) && (i <? 32).
Proof.
  intros Hp. unfold ip_int_from_prefix.
  change ALL_ONES with (N.ones 32).
  rewrite N.lxor_spec, N.shiftr_spec'. bit_cases; try done; lia.
Qed.

Lemma land_mask x p :
  p ≤ 32 → x < 2 ^ 32 →
  N.land x (ip_int_from_prefix p) = x / 2 ^ (32 - p) * 2 ^ (32 - p).
Proof.
  intros Hp Hx.
  rewrite <- N.shiftl_mul_pow2, <- N.shiftr_div_pow2, <- N.ldiff_ones_r.
  apply N.bits_inj. intros i.
  rewrite N.land_spec, N.ldiff_spec, mask_testbit by done.
  destruct (N.le_gt_cases 32 i) as [Hi|Hi].
  - by rewrite (testbit_above x i).
  - bit_cases; try lia; by rewrite ?andb_true_r, ?andb_false_r.
Qed.

Section Block.
Variables (a p : N).
Hypothesis Ha : a < 2 ^ 32.
Hypothesis Hp : p ≤ 32.

Let n := IPv4Network_new a p.
Let k := 32 - p.

Lemma network_address_new : network_address n = a / 2 ^ k * 2 ^ k.
Proof.
  subst n k. unfold IPv4Network_new. simpl.
  rewrite <- land_mask by done.
  destruct (N.eqb_spec (N.land a (ip_int_from_prefix p)) a); simpl; congruence.
Qed.

Lemma hostmask_new : hostmask n = 2 ^ k - 1.
Proof.
  subst n k. unfold hostmask, IPv4Network_new. simpl.
  rewrite <- N.pred_sub, <- N.ones_equiv.
  apply N.bits_inj. intros i. change ALL_ONES with (N.ones 32).
  rewrite N.lxor_spec, mask_testbit by done.
  bit_cases; try done; lia.
Qed.

Lemma broadcast_address_new :
  broadcast_address n = network_address n + (2 ^ k - 1).
Proof.
  unfold broadcast_address. rewrite hostmask_new, network_address_new.
  assert (N.land (a / 2 ^ k * 2 ^ k) (2 ^ k - 1) = 0) as Hdisj.
  { rewrite <- N.pred_sub, <- N.ones_equiv, N.land_ones.
    apply N.Div0.mod_mul. }
  by rewrite <- N.lxor_lor, <- N.add_nocarry_lxor.
Qed.

Lemma block_bound : network_address n + 2 ^ k ≤ 2 ^ 32.
Proof.
  rewrite network_address_new.
  assert (2 ^ 32 = 2 ^ p * 2 ^ k) as Hpow.
  { rewrite <- N.pow_add_r. f_equal. subst k. lia. }
  assert (0 < 2 ^ k) by (apply N.neq_0_lt_0, N.pow_nonzero; lia).
  assert (a / 2 ^ k < 2 ^ p).
  { apply N.Div0.div_lt_upper_bound. lia. }
  nia.
Qed.


Lemma hosts_below x : x ∈ hosts n → x < 2 ^ 32.
Proof.
  pose proof block_bound as Hb. pose proof broadcast_address_new as Hbc.
  assert (0 < 2 ^ k) as Hk by (apply N.neq_0_lt_0, N.pow_nonzero; lia).
  unfold hosts, iter. change (addr n) with a.
  repeat case_match;
    rewrite ?elem_of_range, ?list_elem_of_singleton; intros ?; lia.
Qed.

Lemma NoDup_hosts : NoDup (hosts n).
Proof.
  unfold hosts, iter. repeat case_match;
    [apply NoDup_range | apply NoDup_singleton | apply NoDup_range].
Qed.

End Block.

(** *** Dotted decimal is one-to-one on 32-bit addresses *)

Lemma string_of_uint_no_dot d :
  no_dot (DecimalString.NilEmpty.string_of_uint d) = true.
Proof. induction d; simpl; auto. Qed.

Lemma append_dot_inj s t r r' :
  no_dot s = true → no_dot t = true →
  s +:+ "." +:+ r = t +:+ "." +:+ r' → s = t ∧ r = r'.
Proof.
  revert t. induction s as [|c s IH]; intros [|c' t]; simpl;
    unfold String.append; fold String.append.
  - intros _ _ [= ->]. done.
  - intros _ Ht [= <- _]. done.
  - intros Hs _ [= -> _]. done.
  - intros [_ Hs]%andb_prop [_ Ht]%andb_prop [= -> Heq].
    destruct (IH t Hs Ht Heq) as [-> ->]. done.
Qed.

Lemma str_N_inj x y : str_N x = str_N y → x = y.
Proof.
  unfold str_N. intros Heq.
  apply (f_equal DecimalString.NilEmpty.uint_of_string) in Heq.
  rewrite !DecimalString.NilEmpty.usu in Heq. injection Heq as Heq.
  apply (f_equal N.of_uint) in Heq. by rewrite !Unsigned.of_to in Heq.
Qed.

Lemma bytes_sum x :
  x < 4294967296 →
  x = (x / 16777216) mod 256 * 16777216 + (x / 65536) mod 256 * 65536
      + (x / 256) mod 256 * 256 + x mod 256.
Proof.
  intros Hx.
  pose proof (N.Div0.div_mod x 256).
  pose proof (N.Div0.div_mod (x / 256) 256) as Hx1.
  pose proof (N.Div0.div_mod (x / 65536) 256) as Hx2.
  replace (x / 256 / 256) with (x / 65536) in Hx1
    by (by rewrite N.Div0.div_div).
  replace (x / 65536 / 256) with (x / 16777216) in Hx2
    by (by rewrite N.Div0.div_div).
  assert (x / 16777216 < 256) by (apply N.Div0.div_lt_upper_bound; lia).
  rewrite (N.mod_small (x / 16777216)) by done.
  lia.
Qed.

Lemma to_bytes4_inj x y :
  x < 2 ^ 32 → y < 2 ^ 32 → to_bytes4 x = to_bytes4 y → x = y.
Proof.
  unfold to_bytes4. change (2 ^ 32) with 4294967296.
  change (2 ^ 24) with 16777216. change (2 ^ 16) with 65536.
  change (2 ^ 8) with 256. intros Hx Hy [= H3 H2 H1 H0].
  rewrite (bytes_sum x), (bytes_sum y) by done. congruence.
Qed.

Lemma string_from_ip_int_inj x y :
  x < 2 ^ 32 → y < 2 ^ 32 →
  string_from_ip_int x = string_from_ip_int y → x = y.
Proof.
  intros Hx Hy Heq. apply to_bytes4_inj; [done..|].
  unfold string_from_ip_int, to_bytes4 in *. simpl in Heq.
  repeat match type of Heq with
    | _ +:+ "." +:+ _ = _ =>
        apply append_dot_inj in Heq as [?%str_N_inj Heq];
        [|apply string_of_uint_no_dot..]
    end.
  apply str_N_inj in Heq. congruence.
Qed.

Lemma NoDup_pool a p :
  a < 2 ^ 32 → p ≤ 32 →
  NoDup (string_from_ip_int <$> hosts (IPv4Network_new a p)).
Proof.
  intros Ha Hp. apply NoDup_fmap_2_strong; [|by apply NoDup_hosts].
  intros x y Hx%hosts_below Hy%hosts_below; [|done..].
  by apply string_from_ip_int_inj.
Qed.

End Networks.

(** ** The pool and the table along a run *)

Section Invariant.
Variable E : Platform.
Implicit Types (p : Packet) (w : world) (s : t) (mac ip : string).

Lemma init_Ok iface cidr mask gw dns lease s :
  __init__ E iface cidr mask gw dns lease = Ok s →
  ∃ a plen,
    ip_network_read E cidr = Ok (a, plen)
    ∧ (a < 2 ^ 32)%N ∧ (plen ≤ 32)%N
    ∧ s = Build iface cidr mask gw dns lease ∅ gw
            (ipaddress.string_from_ip_int <$>
               ipaddress.hosts (ipaddress.IPv4Network_new a plen)).
Proof.
  unfold __init__.
  destruct (ip_network_read E cidr) as [[a plen]|] eqn:Hr; [|done].
  intros [= <-]. destruct (ip_network_read_range E _ _ _ Hr).
  by exists a, plen.
Qed.

Lemma offers_snoc l f :
  offers (l ++ [f])
  = offers l ++ (if is_offer f
                 then match layer_BOOTP f with
                      | Some b => [(BOOTP.chaddr b, BOOTP.yiaddr b)]
                      | None => []
                      end
                 else []).
Proof.
  unfold offers. rewrite omap_app. f_equal. simpl.
  destruct (is_offer f); [|done]. by destruct (layer_BOOTP f).
Qed.

Lemma invariant_effect pool0 p w w' :
  NoDup pool0 → invariant pool0 w → effect E p w w' → invariant pool0 w'.
Proof.
  intros Hnd (taken & Hpool & Hval & Hinj & Hoff) Heff.
  assert (∀ mac ip rest,
    available_ips (self w) = ip :: rest →
    self w' = allocate mac ip rest (self w) →
    pool0 = (taken ++ [ip]) ++ available_ips (self w')
    ∧ (∀ mac' ip', allocated_ips (self w') !! mac' = Some ip' →
                   ip' ∈ taken ++ [ip])
    ∧ (∀ m1 m2 ip', allocated_ips (self w') !! m1 = Some ip' →
                    allocated_ips (self w') !! m2 = Some ip' → m1 = m2))
    as Htake.
  { intros mac ip rest Hav ->. simpl. rewrite Hav in Hpool.
    assert (ip ∉ taken) as Hfresh.
    { rewrite Hpool in Hnd. apply NoDup_app in Hnd as (_ & Hdisj & _).
      intros Hin. apply (Hdisj _ Hin). left. }
    split_and!.
    - by rewrite <- app_assoc.
    - intros mac' ip'. rewrite lookup_insert. case_decide.
      + intros [= <-]. set_solver.
      + intros ?%Hval. set_solver.
    - intros m1 m2 ip'. rewrite !lookup_insert.
      repeat case_decide; subst; try done.
      + intros [= <-] ?%Hval. done.
      + intros ?%Hval [= <-]. done.
      + apply Hinj. }
  destruct Heff as [Hs Hw|mac x ip f _ _ Hf Hs Hw
                   |mac x ip rest _ Hav Hs Hw|mac x ip rest f _ Hav Hs Hf Hw].
  - exists taken. by rewrite Hs, Hw.
  - exists taken. rewrite Hs, Hw, offers_snoc.
    destruct (prepared_ack _ _ _ _ _ _ Hf) as [-> _].
    by rewrite app_nil_r.
  - exists (taken ++ [ip]). destruct (Htake _ _ _ Hav Hs) as (?&?&?).
    split_and!; [done..|]. rewrite Hw. by apply sublist_inserts_r.
  - exists (taken ++ [ip]). destruct (Htake _ _ _ Hav Hs) as (?&?&?).
    split_and!; [done..|]. rewrite Hw, offers_snoc.
    destruct (prepared_offer _ _ _ _ _ _ Hf) as [-> [ch ->]].
    rewrite fmap_app. simpl. by apply sublist_app.
Qed.

Lemma invariant_reachable iface cidr mask gw dns lease s0 w :
  __init__ E iface cidr mask gw dns lease = Ok s0 →
  reachable E s0 w →
  NoDup (available_ips s0) ∧ invariant (available_ips s0) w.
Proof.
  intros (a & plen & _ & Ha & Hp & ->)%init_Ok [l0 Hrun]. simpl.
  pose proof (NoDup_pool a plen Ha Hp) as Hnd. split; [done|].
  revert w Hrun. apply rtc_ind_r.
  - exists []. simpl. split_and!; [done| | |]; try done.
  - intros w w' _ [h q] IH.
    eapply invariant_effect; [done..|]. apply invoke_effect.
Qed.

Lemma snd_unique {A B} (l : list (A * B)) a b y :
  NoDup (l.*2) → (a, y) ∈ l → (b, y) ∈ l → a = b.
Proof.
  induction l as [|[a' y'] l IH]; simpl; [by intros _ ?%elem_of_nil|].
  intros [Hnotin Hnd]%NoDup_cons. rewrite !elem_of_cons.
  intros [?|Ha] [?|Hb]; simplify_eq; try done.
  - destruct Hnotin. apply list_elem_of_fmap. by exists (b, y').
  - destruct Hnotin. apply list_elem_of_fmap. by exists (a, y').
  - by apply IH.
Qed.

End Invariant.

(** ** Properties of the responder *)

Section Replies.
Variable E : Platform.
Implicit Types (p : Packet) (w : world) (s : t) (mac ip : string).

Lemma valid_entries_Ok l vd :
  valid_entries E l = Ok vd → vd = List.filter (aton_accepts E) l.
Proof.
  revert vd. induction l as [|ip l IH]; simpl; intros vd; [by intros [= <-]|].
  unfold is_valid_ip, aton_accepts.
  destruct (inet_aton E ip) as [?|e]; [|destruct (is_socket_error e)];
    destruct (valid_entries E l) as [vd'|]; intros [= <-];
    by rewrite (IH _ eq_refl).
Qed.

Lemma head_filter_find {A} (f : A → bool) (l : list A) :
  head (List.filter f l) = List.find f l.
Proof. induction l as [|x l IH]; simpl; [done|]. by destruct (f x). Qed.

Lemma snoc_inv {A} (l : list A) x y : l ++ [x] = l ++ [y] → x = y.
Proof. by intros [= ->]%app_inv_head. Qed.

Lemma snoc_neq {A} (l : list A) x : l ≠ l ++ [x].
Proof.
  intros Heq%(f_equal length). rewrite length_app in Heq. simpl in Heq. lia.
Qed.

(** The frame an invocation sent, if it sent one. *)
Lemma sent_frame h p w f :
  wire (invoke E h p w).2 = wire w ++ [f] →
  ∃ mac x ip kind,
    prepared E (self w) mac x ip kind = Ok f
    ∧ Ether.src <$> layer_Ether p = Some mac
    ∧ BOOTP.xid <$> layer_BOOTP p = Some x
    ∧ (kind = "offer" ∧ head (available_ips (self w)) = Some ip
       ∨ kind = "ack" ∧ allocated_ips (self w) !! mac = Some ip).
Proof.
  intros Hw.
  destruct (invoke_effect E h p w)
    as [_ Hw'|mac x ip f' Hp Hm Hf _ Hw'
       |mac x ip rest _ _ _ Hw'|mac x ip rest f' Hp Hav Hs Hf Hw'];
    rewrite Hw' in Hw.
  - by apply snoc_neq in Hw.
  - apply snoc_inv in Hw as <-. destruct Hp as (_ & ? & ?).
    exists mac, x, ip, "ack". split_and!; [done..|]. by right.
  - by apply snoc_neq in Hw.
  - apply snoc_inv in Hw as <-. destruct Hp as (_ & ? & ?).
    exists mac, x, ip, "offer". rewrite Hs in Hf. rewrite Hav.
    split_and!; [done..|]. by left.
Qed.

End Replies.

(** C3.  Whatever the configured DNS list, a frame sent by a handler (an
    Offer or an Ack) carries exactly one name-server option; its value is
    the first entry of the list that [inet_aton] accepts, and the gateway
    address when it accepts none.  Entries after the first accepted one
    never reach a frame. *)
Theorem name_server_is_first_valid (E : Platform) (h : handler)
    (p : Packet) (w : world) (f : Packet) :
  wire (invoke E h p w).2 = wire w ++ [f] →
  option_values "name_server" f
  = [VStr (default (gateway (self w))
             (List.find (aton_accepts E) (dns_servers (self w))))].
Proof.
  intros (mac & x & ip & kind & Hf & _)%sent_frame.
  apply prepared_Ok in Hf as (vd & hw & ch & Hvd%valid_entries_Ok & _ & _ & ->).
  rewrite <- head_filter_find, <- Hvd. by destruct vd.
Qed.

(** C6.  A Request frame from a hardware address that is not in the
    allocation table changes nothing: every entry point returns normally,
    no frame is sent (so no NAK), no line is logged and the responder is as
    before. *)
Theorem request_from_unknown_client (E : Platform) (h : handler)
    (mac : string) (x : Z) (p : Packet) (w : world) :
  dhcp_frame 3 mac x p →
  allocated_ips (self w) !! mac = None →
  invoke E h p w = (Ok tt, w).
Proof.
  intros Hp Hnone. destruct h; simpl.
  - unfold handle_dhcp_discover, bind, lift, ret.
    destruct Hp as ((v & Hv & Hty) & _).
    assert (dhcp_type_is p 1 = Ok false) as ->; [|done].
    unfold dhcp_type_is, first_option_value, getlayer in *.
    destruct (layer_DHCP p); [|done]. rewrite Hv.
    destruct v as [n|]; [|done]. simpl in *. apply Z.eqb_eq in Hty as ->. done.
  - by eapply request_unknown.
  - rewrite (process_packet_typed E 3 mac x p w Hp). simpl.
    by eapply request_unknown.
Qed.

(** C10.  The Request handler leaves the responder object as it found it,
    for every frame and whether it returns or raises: the pool and the
    table after the call are those before it.  An invocation that does
    change the responder is the Discover handler at work on a frame whose
    message type is 1. *)
Theorem request_handler_is_read_only (E : Platform) (h : handler)
    (p : Packet) (w : world) :
  self (handle_dhcp_request E p w).2 = self w
  ∧ (self (invoke E h p w).2 = self w
     ∨ h ≠ Request
       ∧ dhcp_type_is p 1 = Ok true
       ∧ invoke E h p w = handle_dhcp_discover E p w).
Proof.
  split; [apply request_effect|].
  destruct h; simpl.
  - destruct (dhcp_type_is p 1) as [[]|] eqn:Hty; [by right|left..];
      rewrite discover_skip; try done; by rewrite Hty.
  - left. apply request_effect.
  - destruct (dhcp_type_is p 1) as [[]|] eqn:Hty.
    + right. apply dhcp_type_is_true in Hty as (v & Hv & Hty).
      split_and!; [done..|].
      unfold process_packet, bind, lift.
      unfold first_option_value, getlayer in Hv.
      destruct (layer_DHCP p) eqn:Hd; [|done].
      unfold first_option_value, getlayer. rewrite Hd.
      destruct (DHCP.options _); [done|]. by rewrite Hv, Hty.
    + left. destruct (process_packet_cases E p w) as [->|[->| ->]];
        [|apply request_effect|done].
      rewrite discover_skip; [done|by rewrite Hty].
    + left. destruct (process_packet_cases E p w) as [->|[->| ->]];
        [|apply request_effect|done].
      rewrite discover_skip; [done|by rewrite Hty].
Qed.

(** C7.  An invocation sends nothing or exactly one frame, and that frame
    is: Ethernet from the interface's own hardware address to broadcast; IP
    from the server address to 255.255.255.255; UDP from port 67 to port 68;
    BOOTP with operation 2, the transaction id of the inbound frame, the
    address offered (the head of the pool) or assigned (the table entry),
    the server address and the raw bytes of the client's hardware address;
    DHCP options message-type, server_id, subnet_mask, router, name_server,
    lease_time and the end marker, in this order. *)
Theorem reply_frame_layout (E : Platform) (h : handler) (p : Packet)
    (w : world) :
  let s := self w in
  let w' := (invoke E h p w).2 in
  wire w' = wire w
  ∨ ∃ e b hw ch kind ip ns,
      layer_Ether p = Some e
      ∧ layer_BOOTP p = Some b
      ∧ get_if_hwaddr E (interface s) = Ok hw
      ∧ mac2str E (Ether.src e) = Ok ch
      ∧ (kind = "offer" ∧ head (available_ips s) = Some ip
         ∨ kind = "ack" ∧ allocated_ips s !! Ether.src e = Some ip)
      ∧ wire w' = wire w ++
          [ {| layer_Ether := Some (Ether.Build hw "ff:ff:ff:ff:ff:ff");
               layer_IP := Some (IP.Build (server_ip s) "255.255.255.255");
               layer_UDP := Some (UDP.Build 67 68);
               layer_BOOTP :=
                 Some (BOOTP.Build 2 (BOOTP.xid b) ip (server_ip s) ch);
               layer_DHCP :=
                 Some (DHCP.Build
                   [ Opt "message-type" (VStr kind);
                     Opt "server_id" (VStr (server_ip s));
                     Opt "subnet_mask" (VStr (subnet_mask s));
                     Opt "router" (VStr (gateway s));
                     Opt "name_server" (VStr ns);
                     Opt "lease_time" (VInt (lease_time s));
                     Marker "end" ]) |} ].
Proof.
  intros s w'. subst s w'.
  assert (∀ mac x ip kind f,
    dhcp_frame (if String.eqb kind "ack" then 3 else 1) mac x p →
    prepared E (self w) mac x ip kind = Ok f →
    ∃ e b hw ch ns,
      layer_Ether p = Some e ∧ layer_BOOTP p = Some b
      ∧ Ether.src e = mac
      ∧ get_if_hwaddr E (interface (self w)) = Ok hw
      ∧ mac2str E (Ether.src e) = Ok ch
      ∧ f = reply (self w) hw (BOOTP.xid b) ip ch kind [ns]) as Hshape.
  { intros mac x ip kind f (_ & He & Hb) (vd & hw & ch & _ & ? & ? & ->)%prepared_Ok.
    destruct (layer_Ether p) as [e|]; [|done].
    destruct (layer_BOOTP p) as [b|]; [|done]. simplify_eq/=.
    exists e, b, hw, ch, (match vd with ip :: _ => ip | [] => gateway (self w) end).
    split_and!; try done; by destruct vd. }
  destruct (invoke_effect E h p w)
    as [_ Hw|mac x ip f Hp Hm Hf _ Hw
       |mac x ip rest _ _ _ Hw|mac x ip rest f Hp Hav Hs Hf Hw];
    [by left| |by left|]; right.
  - destruct (Hshape mac x ip "ack" f Hp Hf)
      as (e & b & hw & ch & ns & ? & ? & <- & ? & ? & ->).
    exists e, b, hw, ch, "ack", ip, ns. split_and!; try done. by right.
  - rewrite Hs in Hf.
    destruct (Hshape mac x ip "offer" f Hp Hf)
      as (e & b & hw & ch & ns & ? & ? & <- & ? & ? & ->).
    exists e, b, hw, ch, "offer", ip, ns. split_and!; try done.
    left. by rewrite Hav.
Qed.

(** C2.  In every world the responder can reach from its construction, by
    any invocations of its handlers: the set of addresses in the table has
    at most as many elements as the initial pool; the initial pool has no
    repetition, what is left of it is its tail, and an address in the table
    is an address of the initial pool that is no longer available (it was
    removed, once); every address in an Offer sent is an address of the
    initial pool; no address is in two Offers, so no address was offered to
    two hardware addresses, and none is recorded for two. *)
Theorem allocation_invariant (E : Platform)
    (iface cidr mask gw : string) (dns : list string) (lease : Z)
    (s0 : t) (w : world) :
  __init__ E iface cidr mask gw dns lease = Ok s0 →
  reachable E s0 w →
  let pool0 := available_ips s0 in
  let table := allocated_ips (self w) in
  (size (map_img table : gset string) ≤ length pool0)%nat
  ∧ (NoDup pool0
     ∧ available_ips (self w) `suffix_of` pool0
     ∧ ∀ mac ip, table !! mac = Some ip →
                 ip ∈ pool0 ∧ ip ∉ available_ips (self w))
  ∧ (∀ c ip, (c, ip) ∈ offers (wire w) → ip ∈ pool0)
  ∧ (NoDup (offers (wire w)).*2
     ∧ (∀ c1 c2 ip, (c1, ip) ∈ offers (wire w) →
                    (c2, ip) ∈ offers (wire w) → c1 = c2)
     ∧ (∀ m1 m2 ip, table !! m1 = Some ip → table !! m2 = Some ip →
                    m1 = m2)).
Proof.
  intros Hinit Hreach pool0 table.
  destruct (invariant_reachable E _ _ _ _ _ _ _ _ Hinit Hreach)
    as (Hnd & taken & Hpool & Hval & Hinj & Hoff).
  fold pool0 in Hnd, Hpool. fold table in Hval, Hinj.
  pose proof Hnd as Hnd'. rewrite Hpool in Hnd'.
  apply NoDup_app in Hnd' as (Hndt & Hdisj & _).
  assert (NoDup (offers (wire w)).*2) as Hndo by by eapply sublist_NoDup.
  split_and!; try done.
  - transitivity (size (list_to_set taken : gset string)).
    + apply subseteq_size. intros ip (mac & Hm)%elem_of_map_img.
      apply elem_of_list_to_set. eauto.
    + rewrite size_list_to_set by done. rewrite Hpool, length_app. lia.
  - by exists taken.
  - intros mac ip Hin%Hval. split; [|by apply Hdisj].
    rewrite Hpool. set_solver.
  - intros c ip Hin. rewrite Hpool. apply elem_of_app. left.
    eapply elem_of_sublist; [|done].
    apply list_elem_of_fmap. by exists (c, ip).
  - intros c1 c2 ip. by apply snd_unique.
Qed.


(** ** Runs of the capture loop *)

Section Runs.
Variable E : Platform.
Implicit Types (p d : Packet) (w : world) (s : t) (mac ip : string).

Lemma effect_config p w w' :
  effect E p w w' → config_of (self w') = config_of (self w).
Proof. intros [Hs _|? ? ? ? _ _ _ Hs _|? ? ? ? _ _ Hs _|? ? ? ? ? _ _ Hs _ _];
         by rewrite Hs. Qed.

Lemma prepared_config s s' mac x ip kind :
  config_of s = config_of s' →
  prepared E s mac x ip kind = prepared E s' mac x ip kind.
Proof.
  unfold config_of, prepared, reply. intros [= Hi _ Hm Hg Hd Hl Hs].
  by rewrite Hi, Hm, Hg, Hd, Hl, Hs.
Qed.

Lemma prepared_fields s mac x ip kind f :
  prepared E s mac x ip kind = Ok f →
  message_type f = [VStr kind] ∧ your_ip f = Some ip
  ∧ transaction f = Some x.
Proof. by intros (vd & hw & ch & _ & _ & _ & ->)%prepared_Ok. Qed.

Lemma prepared_reliable s ps p mac x ip kind :
  reliable E s ps → p ∈ ps → Ether.src <$> layer_Ether p = Some mac →
  ∃ f, prepared E s mac x ip kind = Ok f.
Proof.
  intros ([vd Hvd] & [hw Hhw] & Hmac & _) Hin He.
  destruct (layer_Ether p) as [e|] eqn:Hl; simplify_eq/=.
  destruct (Hmac p e Hin Hl) as [ch Hch].
  unfold prepared. rewrite Hvd, Hhw, Hch. eauto.
Qed.

Lemma sniff_cons prn p evs w :
  sniff E prn (Captured p :: evs) w
  = match prn p w with
    | (Ok _, w') => sniff E prn evs w'
    | (Raise e, w') =>
        if callback_fault_escapes E e then (Raise e, w') else (Ok tt, w')
    end.
Proof. done. Qed.

(** A run of Discover frames on a platform that does not fail: each frame
    met while the pool is not empty takes its head and is answered by an
    Offer of it; the others are answered by nothing. *)
Lemma discover_run s ds :
  Forall (λ d, ∃ mac x, dhcp_frame 1 mac x d) ds →
  reliable E s ds →
  ∀ w, config_of (self w) = config_of s →
  ∃ w' new,
    sniff E (process_packet E) (Captured <$> ds) w = (Ok tt, w')
    ∧ wire w' = wire w ++ new
    ∧ available_ips (self w') = drop (length ds) (available_ips (self w))
    ∧ Forall (λ f, is_offer f = true) new
    ∧ your_ip <$> new = Some <$> take (length ds) (available_ips (self w))
    ∧ transaction <$> new
      = (λ d, BOOTP.xid <$> layer_BOOTP d)
          <$> take (length (available_ips (self w))) ds.
Proof.
  induction ds as [|d ds IH]; intros Hds Hrel w Hcfg.
  { exists w, []. simpl. rewrite app_nil_r, drop_0, take_nil.
    split_and!; try done. }
  apply Forall_cons in Hds as [(mac & x & Hd) Hds].
  assert (reliable E s ds) as Hrel'.
  { destruct Hrel as (? & ? & Hmac & ?). split_and!; try done.
    intros p e Hin. apply Hmac. by right. }
  rewrite fmap_cons, sniff_cons, (process_packet_typed E 1 mac x d w Hd).
  simpl. destruct (available_ips (self w)) as [|ip rest] eqn:Hpool.
  - rewrite (discover_exhausted E mac x d w Hd Hpool).
    edestruct (IH Hds Hrel') as (w' & new & Hrun & Hw & Hav & Hoff & Hip & Hx);
      [|exists w', new; rewrite Hrun]; [done|].
    simpl in *. rewrite Hpool in *. rewrite take_nil in Hip.
    rewrite drop_nil in Hav. done.
  - rewrite (discover_allocates E mac x d w ip rest Hd Hpool). simpl.
    destruct (prepared_reliable s (d :: ds) d mac x ip "offer" Hrel)
      as [f Hf]; [by left|by destruct Hd as (_ & ? & _)|].
    rewrite (prepared_config _ s) by by rewrite <- Hcfg.
    rewrite Hf. destruct Hrel as (_ & _ & _ & ->).
    pose proof (prepared_fields _ _ _ _ _ _ Hf) as (Hty & Hyip & Htr).
    edestruct (IH Hds Hrel') as (w' & new & Hrun & Hw & Hav & Hoff & Hip & Hx);
      [|exists w', (f :: new); rewrite Hrun]; [by rewrite <- Hcfg|].
    cbn [self wire available_ips allocate set_allocated_ips
         set_available_ips] in Hw, Hav, Hip, Hx.
    rewrite Hw, <- app_assoc. split_and!; try done.
    + constructor; [|done]. unfold is_offer. by rewrite Hty.
    + by rewrite fmap_cons, Hyip, Hip.
    + rewrite fmap_cons, Htr, Hx. simpl. by destruct Hd as (_ & _ & ->).
Qed.

(** A frame that is not a Discover from [mac] leaves the entry of [mac]
    as it is. *)
Lemma entry_kept p w w' mac ip :
  effect E p w w' →
  (¬ ∃ x, dhcp_frame 1 mac x p) →
  allocated_ips (self w) !! mac = Some ip →
  allocated_ips (self w') !! mac = Some ip.
Proof.
  intros [Hs _|? ? ? ? _ _ _ Hs _
         |mac' x ? ? Hp _ Hs _|mac' x ? ? ? Hp _ Hs _ _] Hnot Hm;
    rewrite Hs; try done; simpl.
  all: destruct (decide (mac' = mac)) as [->|?]; [destruct Hnot; eauto|].
  all: by rewrite lookup_insert_ne.
Qed.

Lemma sniff_keeps mac ip between :
  Forall (λ q, ¬ ∃ x, dhcp_frame 1 mac x q) between →
  ∀ w1 w2,
  sniff E (process_packet E) (Captured <$> between) w1 = (Ok tt, w2) →
  allocated_ips (self w1) !! mac = Some ip →
  allocated_ips (self w2) !! mac = Some ip
  ∧ config_of (self w2) = config_of (self w1).
Proof.
  induction 1 as [|q between Hq _ IH]; intros w1 w2.
  { by intros [= <-]. }
  rewrite fmap_cons, sniff_cons.
  pose proof (invoke_effect E Dispatch q w1) as Heff. simpl in Heff.
  destruct (process_packet E q w1) as [[[]|e] w] eqn:Hq1; simpl in Heff.
  - intros Hrun Hm.
    destruct (IH w w2 Hrun) as [Hm' Hcfg]; [by eapply entry_kept|].
    split; [done|]. rewrite Hcfg. by eapply effect_config.
  - destruct (callback_fault_escapes E e); [done|]. intros [= <-] Hm.
    split; [by eapply entry_kept | by eapply effect_config].
Qed.

End Runs.

(** C1.  Let the pool come from a CIDR block with [H] usable host
    addresses, and let the capture hand the responder a sequence of
    Discover frames on a platform whose calls do not fail.  The run ends
    normally; exactly [min n H] frames were sent for [n] Discovers, all of
    them Offers; the [i]-th Offer answers the [i]-th Discover with the
    [i]-th address of the pool, which is no longer in the pool afterwards;
    so each of the first [H] Discovers takes one address and is sent an
    Offer, and the later ones are sent nothing.  Whatever the platform, a
    Discover met while the pool is empty returns normally and changes
    neither the responder nor the frames sent; all it leaves is the
    "Received DHCP Discover" line of the log. *)
Theorem offers_stop_at_pool_size (E : Platform)
    (iface cidr mask gw : string) (dns : list string) (lease : Z)
    (a plen : N) (s : t) (ds : list Packet) :
  ip_network_read E cidr = Ok (a, plen) →
  __init__ E iface cidr mask gw dns lease = Ok s →
  Forall (λ d, ∃ mac x, dhcp_frame 1 mac x d) ds →
  reliable E s ds →
  let H := length (ipaddress.hosts (ipaddress.IPv4Network_new a plen)) in
  (∃ w',
     sniff E (process_packet E) (Captured <$> ds) (World s [] []) = (Ok tt, w')
     ∧ length (available_ips s) = H
     ∧ length (wire w') = min (length ds) H
     ∧ Forall (λ f, is_offer f = true) (wire w')
     ∧ your_ip <$> wire w' = Some <$> take (length ds) (available_ips s)
     ∧ transaction <$> wire w'
       = (λ d, BOOTP.xid <$> layer_BOOTP d) <$> take H ds
     ∧ available_ips (self w') = drop (length ds) (available_ips s))
  ∧ (∀ w d mac x,
       dhcp_frame 1 mac x d → available_ips (self w) = [] →
       process_packet E d w
       = (Ok tt, World (self w) (wire w)
                   (log w ++
                      [(INFO, "Received DHCP Discover from " +:+ mac)]))).
Proof.
  intros Hread Hinit Hds Hrel H. split.
  - assert (length (available_ips s) = H) as Hlen.
    { apply init_Ok in Hinit as (a' & plen' & Hread' & _ & _ & ->).
      rewrite Hread in Hread'. injection Hread' as <- <-.
      simpl. by rewrite length_fmap. }
    destruct (discover_run E s ds Hds Hrel (World s [] []) eq_refl)
      as (w' & new & Hrun & Hw & Hav & Hoff & Hip & Hx).
    simpl in Hw, Hav, Hip, Hx. subst new. exists w'.
    split_and!; try done.
    + apply (f_equal length) in Hip.
      rewrite !length_fmap, length_take in Hip. lia.
    + by rewrite Hx, Hlen.
  - intros w d mac x Hd Hnil.
    rewrite (process_packet_typed E 1 mac x d w Hd). simpl.
    by rewrite (discover_exhausted E mac x d w Hd Hnil).
Qed.

(** C5, as the code has it.  Let a Discover from a hardware address be
    answered by an Offer, and let a Request from that address arrive later,
    no other Discover from it having been captured in between and the link
    taking the reply.  The Request is answered by exactly one Ack; the Ack
    carries the address of that Offer and the client bytes of that Offer,
    and its transaction id is the one of the Request frame. *)
Theorem ack_repeats_the_offer (E : Platform) (mac : string)
    (xd xr : Z) (d r offer : Packet) (between : list Packet)
    (w0 w1 w2 : world) :
  dhcp_frame 1 mac xd d →
  process_packet E d w0 = (Ok tt, w1) →
  wire w1 = wire w0 ++ [offer] →
  Forall (λ q, ¬ ∃ x, dhcp_frame 1 mac x q) between →
  sniff E (process_packet E) (Captured <$> between) w1 = (Ok tt, w2) →
  dhcp_frame 3 mac xr r →
  (∀ f, sendp_fault E (wire w2) f = None) →
  ∃ ack l,
    process_packet E r w2 = (Ok tt, World (self w2) (wire w2 ++ [ack]) l)
    ∧ is_ack ack = true
    ∧ your_ip ack = your_ip offer
    ∧ client_bytes ack = client_bytes offer
    ∧ transaction ack = Some xr
    ∧ transaction offer = Some xd.
Proof.
  intros Hd Hstep Hw1 Hbetween Hrun Hr Hlink.
  pose proof (invoke_effect E Dispatch d w0) as Heff. simpl in Heff.
  rewrite Hstep in Heff. simpl in Heff.
  assert (∃ ip, allocated_ips (self w1) !! mac = Some ip
                ∧ prepared E (self w1) mac xd ip "offer" = Ok offer)
    as (ip & Hm & Hoffer).
  { destruct Heff as [_ Hw|? ? ? ? Hd3 _ _ _ Hw
                     |? ? ? ? _ _ _ Hw
                     |mac' x ip rest f Hd' Hav Hs Hf Hw];
      rewrite Hw in Hw1.
    - by apply snoc_neq in Hw1.
    - by destruct (dhcp_frame_unique _ _ _ _ _ _ _ Hd Hd3) as [? _].
    - by apply snoc_neq in Hw1.
    - apply snoc_inv in Hw1 as ->.
      destruct (dhcp_frame_unique _ _ _ _ _ _ _ Hd Hd') as (_ & <- & <-).
      exists ip. split; [|done]. rewrite Hs. simpl.
      by rewrite lookup_insert_eq. }
  destruct (sniff_keeps E mac ip between Hbetween w1 w2 Hrun Hm)
    as [Hm2 Hcfg].
  rewrite (prepared_config E _ (self w2)) in Hoffer by done.
  apply prepared_Ok in Hoffer as (vd & hw & ch & Hvd & Hhw & Hch & ->).
  rewrite (process_packet_typed E 3 mac xr r w2 Hr). simpl.
  rewrite (request_known E mac xr r w2 ip Hr Hm2).
  unfold prepared. rewrite Hvd, Hhw, Hch, Hlink.
  eexists _, _. split; [done|]. done.
Qed.


Lemma start_unfold E events w :
  start E events w
  = sniff E (process_packet E) events
      (World (self w) (wire w) (log w ++ summary (self w))).
Proof.
  unfold start, bind, get_self, logger, summary. simpl.
  by rewrite <- !app_assoc.
Qed.

Lemma sniff_handled E pre events w w1 :
  handled E pre w = Some w1 →
  sniff E (process_packet E) ((Captured <$> pre) ++ events) w
  = sniff E (process_packet E) events w1.
Proof.
  revert w. induction pre as [|q pre IH]; intros w; simpl.
  - by intros [= ->].
  - destruct (process_packet E q w) as [[[]|] w']; [apply IH|done].
Qed.

(** C9, as the code has it.  Neither the handlers nor [process_packet]
    catch anything: an exception raised while a frame is handled leaves the
    callback, what the handler had changed stays changed, and no frame
    captured after it is processed (no retry, no degraded mode).  The
    exception reaches scapy's [sniff].  When [sniff] lets it out, the main
    block's [except Exception] clause, which encloses [server.start()],
    catches it like a configuration or a pool error: it is logged as an
    error and the process exits with code 1; only what is not an
    [Exception] ends the process unhandled.  When [sniff] swallows it, as
    it does with [KeyboardInterrupt] and, depending on its version, with
    the exceptions of the callback and of the socket, [start] returns and
    the process ends with exit code 0 and no error line.  An [Exception]
    never ends the process as an unhandled fault. *)
Theorem loop_exceptions_end_the_capture (E : Platform)
    (config_file : string) (c : config.t) (s : t)
    (pre : list Packet) (p : Packet) (post : list capture)
    (e : exn) (w1 w2 : world) :
  load_config E config_file = Ok c →
  __init__ E (config.interface c) (config.ip_pool c) (config.subnet_mask c)
    (config.gateway c) (config.dns_servers c) (config.lease_time c) = Ok s →
  handled E pre (World s [] (summary s)) = Some w1 →
  process_packet E p w1 = (Raise e, w2) →
  let error e := (ERROR, "Error: " +:+ exn_str e) in
  let out := main E config_file ((Captured <$> pre) ++ Captured p :: post) in
  out = (if callback_fault_escapes E e
         then if is_Exception e
              then Outcome (Exit 1) (wire w2) (log w2 ++ [error e])
              else Outcome (Unhandled e) (wire w2) (log w2)
         else Outcome (Exit 0) (wire w2) (log w2))
  ∧ (is_Exception e = true → status out ≠ Unhandled e)
  ∧ (exn_cls e = KeyboardInterrupt → status out = Exit 0)
  ∧ (∀ e',
       main E config_file ((Captured <$> pre) ++ CaptureFault e' :: post)
       = if capture_fault_escapes E e'
         then if is_Exception e'
              then Outcome (Exit 1) (wire w1) (log w1 ++ [error e'])
              else Outcome (Unhandled e') (wire w1) (log w1)
         else Outcome (Exit 0) (wire w1) (log w1))
  ∧ (∀ f' e' events,
       is_Exception e' = true →
       load_config E f' = Raise e'
       ∨ (∃ c', load_config E f' = Ok c'
                ∧ __init__ E (config.interface c') (config.ip_pool c')
                    (config.subnet_mask c') (config.gateway c')
                    (config.dns_servers c') (config.lease_time c')
                  = Raise e') →
       main E f' events = Outcome (Exit 1) [] [error e']).
Proof.
  intros Hc Hs Hpre Hp error out.
  assert (out = (if callback_fault_escapes E e
                 then if is_Exception e
                      then Outcome (Exit 1) (wire w2) (log w2 ++ [error e])
                      else Outcome (Unhandled e) (wire w2) (log w2)
                 else Outcome (Exit 0) (wire w2) (log w2))) as Hout.
  { subst out. unfold main. rewrite Hc, Hs, start_unfold. simpl.
    rewrite (sniff_handled E pre _ _ w1 Hpre), sniff_cons, Hp.
    unfold except_Exception.
    destruct (callback_fault_escapes E e); [|done].
    by destruct (is_Exception e). }
  split_and!.
  - done.
  - intros He. rewrite Hout, He.
    by destruct (callback_fault_escapes E e).
  - intros Hki. rewrite Hout.
    by rewrite (callback_interrupt_swallowed E e Hki).
  - intros e'. unfold main. rewrite Hc, Hs, start_unfold. simpl.
    rewrite (sniff_handled E pre _ _ w1 Hpre). simpl.
    unfold except_Exception, lift, ret.
    destruct (capture_fault_escapes E e'); [|done].
    by destruct (is_Exception e').
  - intros f' e' events He' [Hl|(c' & Hl & Hi)]; unfold main, except_Exception;
      by rewrite Hl, ?Hi, He'.
Qed.

(** ** The properties at work on the end-to-end scenario *)

Example hosts_29 :
  ipaddress.string_from_ip_int <$>
    ipaddress.hosts (ipaddress.IPv4Network_new 3232248321 29)
  = ["192.168.50.1"; "192.168.50.2"; "192.168.50.3";
     "192.168.50.4"; "192.168.50.5"; "192.168.50.6"].
Proof. reflexivity. Qed.

Example split_strip :
  strip <$> split "," "8.8.8.8, 1.1.1.1 ,," = ["8.8.8.8"; "1.1.1.1"; ""; ""].
Proof. reflexivity. Qed.

Example init_50 :
  __init__ Bench.E50 "eth0" "192.168.50.0/29" "255.255.255.248"
    "192.168.50.1" ["8.8.8.8"] 300 = Ok Bench.server_50.
Proof. reflexivity. Qed.

Example load_config_50 :
  load_config Bench.E50 "config.ini"
  = Ok (config.Build "eth0" "192.168.50.0/29" "255.255.255.248"
          "192.168.50.1" ["8.8.8.8"] 300).
Proof. reflexivity. Qed.

Lemma dhcp_frame_inbound mac x ty :
  dhcp_frame ty mac x (Bench.inbound mac x ty).
Proof.
  split; [|done]. exists (VInt ty). split; [done|]. apply Z.eqb_refl.
Qed.

Lemma reliable_E50 dns ps :
  Forall (λ ip, ∃ r, is_valid_ip Bench.E50 ip = Ok r) dns →
  Forall (λ p, ∀ e, layer_Ether p = Some e →
               ∃ ch, Bench.hex_bytes (Ether.src e) = Ok ch) ps →
  reliable Bench.E50 (Bench.server_with_dns dns) ps.
Proof.
  intros Hdns Hps. split_and!.
  - simpl. induction Hdns as [|ip dns [r Hr] _ [vd IH]]; simpl; [by eexists|].
    rewrite Hr, IH. by eexists.
  - by eexists.
  - intros p e Hin. by apply (proj1 (Forall_forall _ _) Hps).
  - done.
Qed.

(** Seven Discovers on the pool of 192.168.50.0/29: six Offers. *)
Lemma offers_stop_at_pool_size_witness :
  let H := length (ipaddress.hosts (ipaddress.IPv4Network_new 3232248320 29)) in
  (∃ w',
     sniff Bench.E50 (process_packet Bench.E50) (Captured <$> seven_discovers)
       (World Bench.server_50 [] []) = (Ok tt, w')
     ∧ length (available_ips Bench.server_50) = H
     ∧ length (wire w') = min (length seven_discovers) H
     ∧ Forall (λ f, is_offer f = true) (wire w')
     ∧ your_ip <$> wire w'
       = Some <$> take (length seven_discovers) (available_ips Bench.server_50)
     ∧ transaction <$> wire w'
       = (λ d, BOOTP.xid <$> layer_BOOTP d) <$> take H seven_discovers
     ∧ available_ips (self w')
       = drop (length seven_discovers) (available_ips Bench.server_50))
  ∧ (∀ w d mac x,
       dhcp_frame 1 mac x d → available_ips (self w) = [] →
       process_packet Bench.E50 d w
       = (Ok tt, World (self w) (wire w)
                   (log w ++
                      [(INFO, "Received DHCP Discover from " +:+ mac)]))).
Proof.
  apply (offers_stop_at_pool_size Bench.E50 "eth0" "192.168.50.0/29"
           "255.255.255.248" "192.168.50.1" ["8.8.8.8"] 300).
  - reflexivity.
  - reflexivity.
  - repeat constructor; eexists _, _; apply dhcp_frame_inbound.
  - apply reliable_E50.
    + repeat constructor. by eexists.
    + repeat constructor; intros e [= <-]; by eexists.
Defined.

Example six_offers_for_seven_discovers :
  your_ip <$> sent (main Bench.E50 "config.ini" (Captured <$> seven_discovers))
  = Some <$> [ "192.168.50.1"; "192.168.50.2"; "192.168.50.3";
               "192.168.50.4"; "192.168.50.5"; "192.168.50.6" ].
Proof. reflexivity. Qed.

Lemma reachable_world_3 : reachable Bench.E50 Bench.server_50 world_3.
Proof.
  exists []. eapply rtc_r; [eapply rtc_r; [eapply rtc_once|]|];
    apply step_invoke.
Qed.

(** The invariant after two Discovers and a Request of one client. *)
Lemma allocation_invariant_witness :
  let pool0 := available_ips Bench.server_50 in
  let table := allocated_ips (self world_3) in
  (size (map_img table : gset string) ≤ length pool0)%nat
  ∧ (NoDup pool0
     ∧ available_ips (self world_3) `suffix_of` pool0
     ∧ ∀ mac ip, table !! mac = Some ip →
                 ip ∈ pool0 ∧ ip ∉ available_ips (self world_3))
  ∧ (∀ c ip, (c, ip) ∈ offers (wire world_3) → ip ∈ pool0)
  ∧ (NoDup (offers (wire world_3)).*2
     ∧ (∀ c1 c2 ip, (c1, ip) ∈ offers (wire world_3) →
                    (c2, ip) ∈ offers (wire world_3) → c1 = c2)
     ∧ (∀ m1 m2 ip, table !! m1 = Some ip → table !! m2 = Some ip →
                    m1 = m2)).
Proof.
  apply (allocation_invariant Bench.E50 "eth0" "192.168.50.0/29"
           "255.255.255.248" "192.168.50.1" ["8.8.8.8"] 300).
  - reflexivity.
  - apply reachable_world_3.
Defined.

(** The DNS list not-an-ip, 8.8.8.8, 1.1.1.1 puts 8.8.8.8 in the Offer. *)
Lemma name_server_is_first_valid_witness :
  option_values "name_server" offer_with_dns = [VStr "8.8.8.8"].
Proof.
  apply (name_server_is_first_valid Bench.E50 Dispatch Bench.discover_1
           (World (Bench.server_with_dns ["not-an-ip"; "8.8.8.8"; "1.1.1.1"])
              [] [])).
  reflexivity.
Defined.



(** The Ack of the first client: its Offer's address, the Request's
    transaction id. *)
Lemma ack_repeats_the_offer_witness :
  ∃ ack l,
    process_packet Bench.E50 Bench.request_1 before_request
    = (Ok tt, World (self before_request) (wire before_request ++ [ack]) l)
    ∧ is_ack ack = true
    ∧ your_ip ack = your_ip offer_1
    ∧ client_bytes ack = client_bytes offer_1
    ∧ transaction ack = Some 9%Z
    ∧ transaction offer_1 = Some 7%Z.
Proof.
  apply (ack_repeats_the_offer Bench.E50 Bench.client_1 7 9
           Bench.discover_1 Bench.request_1 offer_1 [Bench.discover_2]
           world_0 after_offer before_request).
  - apply dhcp_frame_inbound.
  - reflexivity.
  - reflexivity.
  - repeat constructor. intros (x & _ & Hsrc & _). discriminate Hsrc.
  - reflexivity.
  - apply dhcp_frame_inbound.
  - reflexivity.
Defined.

(** The Request carries transaction id 9, the Discover carried 7: the Ack
    carries 9. *)
Lemma ack_echoes_the_request_transaction :
  transaction <$>
    sent (main Bench.E50 "config.ini"
            [Captured Bench.discover_1; Captured Bench.request_1])
  = [Some 7%Z; Some 9%Z]
  ∧ is_ack <$>
      sent (main Bench.E50 "config.ini"
              [Captured Bench.discover_1; Captured Bench.request_1])
    = [false; true]
  ∧ BOOTP.xid <$> layer_BOOTP Bench.discover_1 = Some 7%Z
  ∧ BOOTP.xid <$> layer_BOOTP Bench.request_1 = Some 9%Z.
Proof. vm_compute. split_and!; done. Qed.

(** A Request before any Discover leaves the fresh responder as it is. *)
Lemma request_from_unknown_client_witness :
  invoke Bench.E50 Dispatch Bench.request_1 world_0 = (Ok tt, world_0).
Proof.
  apply (request_from_unknown_client Bench.E50 Dispatch Bench.client_1 9).
  - apply dhcp_frame_inbound.
  - reflexivity.
Defined.



(** The link is down when the first Offer is sent, on a machine whose
    scapy catches what the callback raises. *)
Lemma loop_exceptions_end_the_capture_witness :
  let e := Exn OSError "[Errno 100] Network is down" in
  let w1 := World Bench.server_50 [] (summary Bench.server_50) in
  let w2 := (process_packet Bench.E50_down Bench.discover_1 w1).2 in
  let error e := (ERROR, "Error: " +:+ exn_str e) in
  let out :=
    main Bench.E50_down "config.ini"
      ((Captured <$> []) ++
         Captured Bench.discover_1 :: [Captured Bench.discover_2]) in
  out = (if callback_fault_escapes Bench.E50_down e
         then if is_Exception e
              then Outcome (Exit 1) (wire w2) (log w2 ++ [error e])
              else Outcome (Unhandled e) (wire w2) (log w2)
         else Outcome (Exit 0) (wire w2) (log w2))
  ∧ (is_Exception e = true → status out ≠ Unhandled e)
  ∧ (exn_cls e = KeyboardInterrupt → status out = Exit 0)
  ∧ (∀ e',
       main Bench.E50_down "config.ini"
         ((Captured <$> []) ++
            CaptureFault e' :: [Captured Bench.discover_2])
       = if capture_fault_escapes Bench.E50_down e'
         then if is_Exception e'
              then Outcome (Exit 1) (wire w1) (log w1 ++ [error e'])
              else Outcome (Unhandled e') (wire w1) (log w1)
         else Outcome (Exit 0) (wire w1) (log w1))
  ∧ (∀ f' e' events,
       is_Exception e' = true →
       load_config Bench.E50_down f' = Raise e'
       ∨ (∃ c', load_config Bench.E50_down f' = Ok c'
                ∧ __init__ Bench.E50_down (config.interface c')
                    (config.ip_pool c') (config.subnet_mask c')
                    (config.gateway c') (config.dns_servers c')
                    (config.lease_time c')
                  = Raise e') →
       main Bench.E50_down f' events = Outcome (Exit 1) [] [error e']).
Proof.
  apply (loop_exceptions_end_the_capture Bench.E50_down "config.ini"
           (config.Build "eth0" "192.168.50.0/29" "255.255.255.248"
              "192.168.50.1" ["8.8.8.8"] 300) Bench.server_50
           [] Bench.discover_1 [Captured Bench.discover_2]
           (Exn OSError "[Errno 100] Network is down")
           (World Bench.server_50 [] (summary Bench.server_50)));
    reflexivity.
Defined.

(** [sendp] raises [OSError] inside the Discover handler, in the capture
    loop.  Where scapy lets the exception out of [sniff], the main block
    catches it, logs it and the process exits with code 1; where scapy
    catches it, the process exits with code 0 and logs no error.  A fault
    of the capture itself ends with code 0.  None of the three runs ends
    with an unhandled exception. *)
Lemma transmission_error_does_not_end_unhandled :
  let e := Exn OSError "[Errno 100] Network is down" in
  let loop := [Captured Bench.discover_1; Captured Bench.discover_2] in
  let begun :=
    [ (INFO, "Starting rogue DHCP server on interface eth0");
      (INFO, "Server IP: 192.168.50.1");
      (INFO, "IP Pool: 192.168.50.0/29");
      (INFO, "Gateway: 192.168.50.1");
      (INFO, "DNS Servers: 8.8.8.8");
      (INFO, "Lease Time: 300 seconds") ] in
  let taken :=
    [ (INFO, "Received DHCP Discover from aa:bb:cc:dd:ee:01");
      (INFO, "Offering IP 192.168.50.1 to aa:bb:cc:dd:ee:01") ] in
  (process_packet Bench.E50_down_old Bench.discover_1
     (World Bench.server_50 [] begun)).1 = Raise e
  ∧ main Bench.E50_down_old "config.ini" loop
    = Outcome (Exit 1) []
        (begun ++ taken ++ [(ERROR, "Error: [Errno 100] Network is down")])
  ∧ main Bench.E50_down "config.ini" loop
    = Outcome (Exit 0) [] (begun ++ taken)
  ∧ main Bench.E50 "config.ini" [CaptureFault e]
    = Outcome (Exit 0) [] begun
  ∧ status (main Bench.E50_down_old "config.ini" loop) ≠ Unhandled e
  ∧ status (main Bench.E50_down "config.ini" loop) ≠ Unhandled e.
Proof. vm_compute. split_and!; done. Qed.

(** ** Further properties: dispatch and failures *)

(** X1.  Dispatching a frame is the same as giving it to the Discover
    handler and then to the Request handler: the type test each handler
    makes for itself turns it into a no-op on the frames of the other, and
    on the frames of neither. *)
Theorem dispatch_is_both_handlers (E : Platform) (p : Packet) (w : world) :
  process_packet E p w
  = bind (handle_dhcp_discover E p) (λ _, handle_dhcp_request E p) w.
Proof.
  unfold process_packet, bind, lift, ret.
  destruct (layer_DHCP p) as [d|] eqn:Hd.
  2: { unfold handle_dhcp_discover, handle_dhcp_request, bind, lift, ret,
         dhcp_type_is. by rewrite Hd. }
  destruct (first_option_value p) as [v|e] eqn:Hv.
  2: { unfold handle_dhcp_discover, bind, lift, dhcp_type_is.
       by rewrite Hd, Hv. }
  assert (∀ n, dhcp_type_is p n = Ok (pyval_eq_int v n)) as Hty.
  { intros n. unfold dhcp_type_is. by rewrite Hd, Hv. }
  destruct (pyval_eq_int v 1) eqn:H1.
  - assert (pyval_eq_int v 3 = false) as H3.
    { destruct v as [n|]; [|done]. simpl in *.
      apply Z.eqb_eq in H1 as ->. done. }
    destruct (handle_dhcp_discover E p w) as [[[]|e] w1]; [|done].
    unfold handle_dhcp_request, bind, lift, ret. by rewrite Hty, H3.
  - assert (handle_dhcp_discover E p w = (Ok tt, w)) as ->.
    { unfold handle_dhcp_discover, bind, lift, ret. by rewrite Hty, H1. }
    destruct (pyval_eq_int v 3) eqn:H3; [done|].
    unfold handle_dhcp_request, bind, lift, ret. by rewrite Hty, H3.
Qed.

(** X3.  The Discover handler updates the pool and the table before it
    builds and sends the Offer.  So when it raises on a Discover met with a
    pool that is not empty (the name-server list, the interface address,
    the client bytes or the link failed), the address at the head of the
    pool is gone from the pool and recorded for the client, and no frame
    was sent. *)
Theorem failed_offer_still_consumes (E : Platform) (h : handler)
    (mac : string) (x : Z) (p : Packet) (w : world)
    (ip : string) (rest : list string) (e : exn) :
  h ≠ Request →
  dhcp_frame 1 mac x p →
  available_ips (self w) = ip :: rest →
  (invoke E h p w).1 = Raise e →
  let w' := (invoke E h p w).2 in
  available_ips (self w') = rest
  ∧ allocated_ips (self w') !! mac = Some ip
  ∧ self w' = allocate mac ip rest (self w)
  ∧ wire w' = wire w.
Proof.
  intros Hh Hp Hpool Hraise w'. subst w'.
  assert (invoke E h p w = handle_dhcp_discover E p w) as Heq.
  { destruct h; [done..|]. simpl.
    by rewrite (process_packet_typed E 1 mac x p w Hp). }
  rewrite Heq in *.
  rewrite (discover_allocates E mac x p w ip rest Hp Hpool) in *.
  simpl in *.
  destruct (prepared E _ mac x ip "offer") as [f|e'];
    [destruct (sendp_fault E (wire w) f)|]; simpl in *; try done.
  all: split_and!; try done; by rewrite lookup_insert_eq.
Qed.

(** X4.  The list of valid name servers is computed over the whole
    configured list: it is the sub-list of the entries [inet_aton] accepts
    when no entry makes [inet_aton] raise anything but a socket error, and
    otherwise the computation raises the first such exception, also when a
    valid entry stands earlier in the list. *)
Theorem valid_entries_is_filter_or_first_fault (E : Platform)
    (dns : list string) :
  valid_entries E dns
  = match first_fault E dns with
    | Some e => Raise e
    | None => Ok (List.filter (aton_accepts E) dns)
    end.
Proof.
  induction dns as [|ip dns IH]; simpl; [done|].
  rewrite IH. unfold is_valid_ip, aton_accepts.
  destruct (inet_aton E ip) as [?|e]; [|destruct (is_socket_error e)];
    by destruct (first_fault E dns).
Qed.

(** A valid entry first, then one with a null character: the second one
    makes the computation raise, and a Discover then takes an address
    without an Offer being sent. *)
Example later_entry_aborts_the_reply :
  valid_entries E50_nul ["8.8.8.8"; String "000" "1.1.1.1"]
  = Raise (Exn ValueError "embedded null character")
  ∧ valid_entries E50_nul ["8.8.8.8"; "nonsense"; "1.1.1.1"]
    = Ok ["8.8.8.8"; "1.1.1.1"]
  ∧ (let w := World (Bench.server_with_dns
                       ["8.8.8.8"; String "000" "1.1.1.1"]) [] [] in
     let r := process_packet E50_nul Bench.discover_1 w in
     r.1 = Raise (Exn ValueError "embedded null character")
     ∧ wire r.2 = []
     ∧ allocated_ips (self r.2) !! Bench.client_1 = Some "192.168.50.1").
Proof. vm_compute. split_and!; done. Qed.

(** ** Further properties: the pool *)

Lemma range_lookup a b i :
  i < N.to_nat (b - a) → range a b !! i = Some (a + N.of_nat i)%N.
Proof.
  intros Hi. unfold range. rewrite list_lookup_fmap, lookup_seq_lt by done.
  done.
Qed.

(** X5.  The size and the order of the pool at construction.  For a prefix
    length of 32 the pool has one address, for 31 two, and for a shorter
    prefix [2 ^ (32 - prefix) - 2]; in the last case its [i]-th entry is the
    dotted-decimal text of the configured address with its host bits
    cleared, plus [1 + i]: Offers go out in ascending order of address,
    starting right after the network address. *)
Theorem pool_size_and_order (E : Platform)
    (iface cidr mask gw : string) (dns : list string) (lease : Z)
    (a plen : N) (s : t) :
  ip_network_read E cidr = Ok (a, plen) →
  __init__ E iface cidr mask gw dns lease = Ok s →
  let k := (32 - plen)%N in
  let net := (a / 2 ^ k * 2 ^ k)%N in
  length (available_ips s)
  = (if (plen =? 32)%N then 1
     else if (plen =? 31)%N then 2
     else N.to_nat (2 ^ k - 2))
  ∧ ((plen ≤ 30)%N →
     ∀ i, i < N.to_nat (2 ^ k - 2) →
          available_ips s !! i
          = Some (ipaddress.string_from_ip_int (net + 1 + N.of_nat i))).
Proof.
  intros Hread (a' & plen' & Hread' & Ha & Hp & ->)%init_Ok k net.
  rewrite Hread in Hread'. injection Hread' as <- <-.
  cbn [available_ips].
  pose proof (network_address_new a plen Ha Hp) as Hnet.
  pose proof (broadcast_address_new a plen Ha Hp) as Hbc.
  fold k in Hnet, Hbc. fold net in Hnet.
  assert (ipaddress.broadcast_address (ipaddress.IPv4Network_new a plen)
          - (net + 1) = 2 ^ k - 2)%N as Hsize.
  { rewrite Hbc, Hnet. clearbody net. generalize (2 ^ k)%N. lia. }
  unfold ipaddress.hosts, ipaddress.iter. simpl ipaddress.prefixlen.
  change ipaddress.IPV4LENGTH with 32%N. change (32 - 1)%N with 31%N.
  split.
  - rewrite length_fmap.
    destruct (N.eqb_spec plen 31) as [->|H31].
    { rewrite length_range, Hbc. subst k.
      change (2 ^ (32 - 31) - 1)%N with 1%N. change (31 =? 32)%N with false.
      generalize (ipaddress.network_address (ipaddress.IPv4Network_new a 31)).
      lia. }
    destruct (N.eqb_spec plen 32) as [->|H32]; [done|].
    by rewrite length_range, Hnet, Hsize.
  - intros Hle i Hi.
    rewrite (proj2 (N.eqb_neq plen 31)) by lia.
    rewrite (proj2 (N.eqb_neq plen 32)) by lia.
    rewrite list_lookup_fmap, Hnet, range_lookup by by rewrite Hsize.
    done.
Qed.

(** The pool of 192.168.50.0/29: six entries, the third is 192.168.50.3. *)
Lemma pool_size_and_order_witness :
  let k := (32 - 29)%N in
  let net := (3232248320 / 2 ^ k * 2 ^ k)%N in
  length (available_ips Bench.server_50)
  = (if (29 =? 32)%N then 1
     else if (29 =? 31)%N then 2
     else N.to_nat (2 ^ k - 2))
  ∧ ((29 ≤ 30)%N →
     ∀ i, i < N.to_nat (2 ^ k - 2) →
          available_ips Bench.server_50 !! i
          = Some (ipaddress.string_from_ip_int (net + 1 + N.of_nat i))).
Proof.
  apply (pool_size_and_order Bench.E50 "eth0" "192.168.50.0/29"
           "255.255.255.248" "192.168.50.1" ["8.8.8.8"] 300);
    reflexivity.
Defined.

Lemma discover_self (E : Platform) (h : handler) mac x p w ip rest :
  h ≠ Request →
  dhcp_frame 1 mac x p →
  available_ips (self w) = ip :: rest →
  self (invoke E h p w).2 = allocate mac ip rest (self w).
Proof.
  intros Hh Hp Hpool.
  assert (invoke E h p w = handle_dhcp_discover E p w) as ->.
  { destruct h; [done..|]. simpl.
    by rewrite (process_packet_typed E 1 mac x p w Hp). }
  rewrite (discover_allocates E mac x p w ip rest Hp Hpool).
  repeat case_match; done.
Qed.

(** X6.  Once the pool is empty it stays empty: whatever frames follow, the
    responder object no longer changes and no Offer is ever sent again;
    only Acks for the addresses already recorded go out. *)
Theorem exhaustion_is_permanent (E : Platform) (w w' : world) :
  available_ips (self w) = [] →
  rtc (step E) w w' →
  self w' = self w
  ∧ offers (wire w') = offers (wire w)
  ∧ ∃ acks, wire w' = wire w ++ acks ∧ Forall (λ f, is_ack f = true) acks.
Proof.
  intros Hnil Hrun. revert w' Hrun. apply rtc_ind_r.
  { split_and!; [done..|]. exists []. by rewrite app_nil_r. }
  intros w1 w2 _ [h p] (Hs & Hoff & acks & Hw & Hacks).
  destruct (invoke_effect E h p w1)
    as [Hs' Hw'|mac x ip f _ _ Hf Hs' Hw'
       |mac x ip rest _ Hav _ _|mac x ip rest f _ Hav _ _ _].
  - rewrite Hs', Hw'. split_and!; [done..|]. by exists acks.
  - destruct (prepared_ack E _ _ _ _ _ Hf) as [Hno Hack].
    rewrite Hs', Hw', offers_snoc, Hno, app_nil_r.
    split_and!; [done..|]. exists (acks ++ [f]).
    rewrite Hw, <- app_assoc. split; [done|].
    apply Forall_app. split; [done|]. by constructor.
  - rewrite Hs, Hnil in Hav. done.
  - rewrite Hs, Hnil in Hav. done.
Qed.

(** X7.  A Discover from a client that already has an entry, met with a
    pool that is not empty, gives the client a new, different address and
    strands the old one: the old address is no longer in the pool and no
    longer in the table, for any client. *)
Theorem rediscover_strands_the_address (E : Platform)
    (iface cidr mask gw : string) (dns : list string) (lease : Z)
    (s0 : t) (w : world) (h : handler) (mac : string) (x : Z) (p : Packet)
    (old new : string) (rest : list string) :
  __init__ E iface cidr mask gw dns lease = Ok s0 →
  reachable E s0 w →
  allocated_ips (self w) !! mac = Some old →
  h ≠ Request →
  dhcp_frame 1 mac x p →
  available_ips (self w) = new :: rest →
  let w' := (invoke E h p w).2 in
  allocated_ips (self w') !! mac = Some new
  ∧ new ≠ old
  ∧ (old ∉ available_ips (self w'))
  ∧ (∀ m, allocated_ips (self w') !! m ≠ Some old).
Proof.
  intros Hinit Hreach Hold Hh Hp Hpool w'. subst w'.
  destruct (invariant_reachable E _ _ _ _ _ _ _ _ Hinit Hreach)
    as (Hnd & taken & Hsplit & Hval & Hinj & _).
  rewrite Hsplit, Hpool in Hnd.
  apply NoDup_app in Hnd as (_ & Hdisj & _).
  pose proof (Hdisj old (Hval _ _ Hold)) as Hnotin.
  rewrite (discover_self E h mac x p w new rest Hh Hp Hpool). simpl.
  split_and!.
  - by rewrite lookup_insert_eq.
  - intros ->. apply Hnotin. left.
  - intros Hin. apply Hnotin. by right.
  - intros m. rewrite lookup_insert. case_decide.
    + intros [= ->]. apply Hnotin. left.
    + intros Hm. by pose proof (Hinj _ _ _ Hm Hold).
Qed.

(** The first client sends a second Discover. *)
Lemma rediscover_strands_the_address_witness :
  let w' := (invoke Bench.E50 Dispatch Bench.discover_1 world_1).2 in
  allocated_ips (self w') !! Bench.client_1 = Some "192.168.50.2"
  ∧ "192.168.50.2" ≠ "192.168.50.1"
  ∧ ("192.168.50.1" ∉ available_ips (self w'))
  ∧ (∀ m, allocated_ips (self w') !! m ≠ Some "192.168.50.1").
Proof.
  apply (rediscover_strands_the_address Bench.E50 "eth0" "192.168.50.0/29"
           "255.255.255.248" "192.168.50.1" ["8.8.8.8"] 300 Bench.server_50
           world_1 Dispatch Bench.client_1 7 Bench.discover_1
           "192.168.50.1" "192.168.50.2"
           ["192.168.50.3"; "192.168.50.4"; "192.168.50.5"; "192.168.50.6"]).
  - reflexivity.
  - exists []. apply rtc_once. apply step_invoke.
  - reflexivity.
  - done.
  - apply dhcp_frame_inbound.
  - reflexivity.
Defined.

(** The link is down: 192.168.50.1 is recorded for the client all the
    same. *)
Lemma failed_offer_still_consumes_witness :
  let w' := (invoke Bench.E50_down Dispatch Bench.discover_1 world_0).2 in
  available_ips (self w')
  = ["192.168.50.2"; "192.168.50.3"; "192.168.50.4"; "192.168.50.5";
     "192.168.50.6"]
  ∧ allocated_ips (self w') !! Bench.client_1 = Some "192.168.50.1"
  ∧ self w'
    = allocate Bench.client_1 "192.168.50.1"
        ["192.168.50.2"; "192.168.50.3"; "192.168.50.4"; "192.168.50.5";
         "192.168.50.6"] (self world_0)
  ∧ wire w' = wire world_0.
Proof.
  apply (failed_offer_still_consumes Bench.E50_down Dispatch Bench.client_1
           7 Bench.discover_1 world_0 "192.168.50.1" _
           (Exn OSError "[Errno 100] Network is down")).
  - done.
  - apply dhcp_frame_inbound.
  - reflexivity.
  - reflexivity.
Defined.

(** A Discover and a Request on the exhausted pool. *)
Lemma exhaustion_is_permanent_witness :
  let w' :=
    (invoke Bench.E50 Dispatch Bench.request_1
       (invoke Bench.E50 Dispatch Bench.discover_2 world_exhausted).2).2 in
  self w' = self world_exhausted
  ∧ offers (wire w') = offers (wire world_exhausted)
  ∧ ∃ acks, wire w' = wire world_exhausted ++ acks
            ∧ Forall (λ f, is_ack f = true) acks.
Proof.
  apply (exhaustion_is_permanent Bench.E50 world_exhausted).
  - reflexivity.
  - eapply rtc_r; [apply rtc_once|]; apply step_invoke.
Defined.

(** ** Further properties: what the replies say *)

Lemma reply_advertises s hw x ip ch kind vd gw mask lease :
  server_ip s = gw → gateway s = gw → subnet_mask s = mask →
  lease_time s = lease →
  advertises gw mask lease (reply s hw x ip ch kind vd)
  ∧ message_type (reply s hw x ip ch kind vd) = [VStr kind]
  ∧ your_ip (reply s hw x ip ch kind vd) = Some ip.
Proof.
  intros <- Hg <- <-. unfold advertises, option_values, message_type, your_ip.
  cbn. by rewrite Hg.
Qed.

(** X8.  Every frame the responder has sent, in any world it can reach from
    its construction, is an Offer or an Ack that names the configured
    gateway as IP source, as server address, as server identifier and as
    router, carries the configured subnet mask and lease time, and assigns
    an address of the initial pool that is no longer available. *)
Theorem replies_advertise_the_gateway (E : Platform)
    (iface cidr mask gw : string) (dns : list string) (lease : Z)
    (s0 : t) (w : world) (f : Packet) :
  __init__ E iface cidr mask gw dns lease = Ok s0 →
  reachable E s0 w →
  f ∈ wire w →
  advertises gw mask lease f
  ∧ (is_offer f = true ∨ is_ack f = true)
  ∧ ∃ ip, your_ip f = Some ip
          ∧ ip ∈ available_ips s0
          ∧ ip ∉ available_ips (self w).
Proof.
  intros Hinit [l0 Hrun] Hf.
  set (good := λ (w : world) (f : Packet),
    advertises gw mask lease f
    ∧ (is_offer f = true ∨ is_ack f = true)
    ∧ ∃ ip, your_ip f = Some ip ∧ ip ∈ available_ips s0
            ∧ ip ∉ available_ips (self w)).
  assert (config_of (self w) = config_of s0 ∧ Forall (good w) (wire w))
    as [_ Hall]; [|by apply (proj1 (Forall_forall _ _) Hall)].
  clear f Hf. revert w Hrun. apply rtc_ind_r; [by split|].
  intros w1 w2 Hrun [h p] [Hcfg Hall].
  assert (reachable E s0 w1) as Hreach by by exists l0.
  destruct (invariant_reachable E _ _ _ _ _ _ _ _ Hinit Hreach)
    as (Hnd & taken & Hsplit & Hval & _ & _).
  pose proof (invoke_effect E h p w1) as Heff.
  pose proof (effect_config E _ _ _ Heff) as Hcfg'.
  split; [by rewrite Hcfg'|].
  assert (server_ip (self w1) = gw ∧ gateway (self w1) = gw
          ∧ subnet_mask (self w1) = mask ∧ lease_time (self w1) = lease)
    as (Hsip & Hgw & Hmask & Hlease).
  { apply init_Ok in Hinit as (? & ? & _ & _ & _ & ->).
    unfold config_of in Hcfg. by simplify_eq/=. }
  assert (∀ mac x ip kind f,
    prepared E (self w1) mac x ip kind = Ok f →
    kind = "offer" ∨ kind = "ack" →
    ip ∈ available_ips s0 → ip ∉ available_ips (self (invoke E h p w1).2) →
    good (invoke E h p w1).2 f) as Hnew.
  { intros mac x ip kind f (vd & hw & ch & _ & _ & _ & ->)%prepared_Ok Hk ??.
    destruct (reply_advertises (self w1) hw x ip ch kind vd gw mask lease)
      as (? & Hty & ?); [done..|].
    split_and!; [done| |by exists ip].
    unfold is_offer, is_ack. rewrite Hty. by destruct Hk as [-> | ->]; auto. }
  assert (∀ ip rest,
    available_ips (self w1) = ip :: rest →
    available_ips (self (invoke E h p w1).2) = rest →
    Forall (good (invoke E h p w1).2) (wire w1)
    ∧ ip ∈ available_ips s0 ∧ ip ∉ rest) as Htake.
  { intros ip rest Hav Hav'. rewrite Hsplit, Hav in Hnd |- *.
    apply NoDup_app in Hnd as (_ & _ & [Hnotin _]%NoDup_cons).
    split_and!; [|apply elem_of_app; right; left|done].
    eapply Forall_impl; [done|]. intros f (? & ? & ip' & ? & ? & Hnot).
    split_and!; [done..|]. exists ip'. split_and!; [done..|].
    rewrite Hav'. rewrite Hav in Hnot. intros Hin. apply Hnot. by right. }
  destruct Heff as [Hs Hw|mac x ip f _ Hm Hprep Hs Hw
                   |mac x ip rest _ Hav Hs Hw|mac x ip rest f _ Hav Hs Hprep Hw];
    rewrite Hw.
  - eapply Forall_impl; [done|]. unfold good. by rewrite Hs.
  - apply Forall_app. split.
    + eapply Forall_impl; [done|]. unfold good. by rewrite Hs.
    + constructor; [|done]. apply (Hnew mac x ip "ack"); [done|by right|..].
      * rewrite Hsplit. apply elem_of_app. left. by eapply Hval.
      * rewrite Hs, Hsplit in *. apply NoDup_app in Hnd as (_ & Hdisj & _).
        by eapply Hdisj, Hval.
  - apply (Htake ip rest); [done|by rewrite Hs].
  - assert (available_ips (self (invoke E h p w1).2) = rest) as Hav'
      by by rewrite Hs.
    destruct (Htake ip rest Hav Hav') as (? & ? & ?).
    apply Forall_app. split; [done|]. constructor; [|done].
    apply (Hnew mac x ip "offer"); [|by left|done|by rewrite Hav'].
    rewrite <- Hprep. apply prepared_config. by rewrite Hs.
Qed.

(** The first Offer of the scenario. *)
Lemma replies_advertise_the_gateway_witness :
  advertises "192.168.50.1" "255.255.255.248" 300 offer_1
  ∧ (is_offer offer_1 = true ∨ is_ack offer_1 = true)
  ∧ ∃ ip, your_ip offer_1 = Some ip
          ∧ ip ∈ available_ips Bench.server_50
          ∧ ip ∉ available_ips (self world_3).
Proof.
  apply (replies_advertise_the_gateway Bench.E50 "eth0" "192.168.50.0/29"
           "255.255.255.248" "192.168.50.1" ["8.8.8.8"] 300 Bench.server_50
           world_3 offer_1).
  - reflexivity.
  - apply reachable_world_3.
  - apply list_elem_of_lookup. exists 0. reflexivity.
Defined.

(** ** Further properties: configuration and the main block *)

Lemma split_length c s : length (split c s) = S (count_char c s).
Proof.
  induction s as [|a s IH]; simpl; [done|].
  destruct (Ascii.eqb a c); simpl; [by rewrite IH|].
  destruct (split c s); simpl in *; done.
Qed.

Lemma join_split c s : join (String c "") (split c s) = s.
Proof.
  induction s as [|a s IH]; simpl; [done|].
  destruct (Ascii.eqb_spec a c) as [->|Hne].
  - destruct (split c s) as [|w ws] eqn:Hs.
    { pose proof (split_length c s) as Hl. by rewrite Hs in Hl. }
    rewrite <- IH. done.
  - destruct (split c s) as [|w ws] eqn:Hs.
    { pose proof (split_length c s) as Hl. by rewrite Hs in Hl. }
    rewrite <- IH. by destruct ws.
Qed.

Lemma split_no_separator c s :
  Forall (λ x, count_char c x = 0) (split c s).
Proof.
  induction s as [|a s IH]; simpl; [by repeat constructor|].
  destruct (Ascii.eqb a c) eqn:Hac; [by constructor|].
  destruct (split c s) as [|w ws]; [repeat constructor; simpl; by rewrite Hac|].
  apply Forall_cons in IH as [Hw Hws].
  constructor; [|done]. simpl. by rewrite Hac.
Qed.

Lemma lstrip_head s :
  match lstrip s with
  | EmptyString => True
  | String a _ => isspace a = false
  end.
Proof.
  induction s as [|a s IH]; simpl; [done|].
  destruct (isspace a) eqn:Ha; done.
Qed.

Lemma rstrip_idemp s : rstrip (rstrip s) = rstrip s.
Proof.
  induction s as [|a s IH]; simpl; [done|].
  destruct (rstrip s) as [|b r] eqn:Hr.
  - destruct (isspace a) eqn:Ha; simpl; [done|]. by rewrite Ha.
  - change (rstrip (String a (String b r))) with
      (match rstrip (String b r) with
       | EmptyString =>
           if isspace a then EmptyString else String a EmptyString
       | r' => String a r'
       end).
    by rewrite IH.
Qed.

Lemma strip_stripped s : stripped (strip s).
Proof.
  unfold stripped, strip. split; [|apply rstrip_idemp].
  pose proof (lstrip_head s) as Hh.
  destruct (lstrip s) as [|a r]; [done|]. simpl.
  rewrite Hh. destruct (rstrip r); simpl; by rewrite Hh.
Qed.

(** X9.  The name-server list [load_config] returns: the raw value of the
    key is cut at every comma, so the list has one entry more than the
    value has commas and is never empty (an empty value gives one empty
    entry); the pieces, joined by commas, give the raw value back, and each
    entry is its piece with the white space at both ends removed. *)
Theorem load_config_dns_list (E : Platform) (config_file : string)
    (c : config.t) :
  load_config E config_file = Ok c →
  ∃ raw pieces,
    config_get E config_file "DHCP" "dns_servers" = Ok raw
    ∧ join "," pieces = raw
    ∧ Forall (λ x, count_char "," x = 0) pieces
    ∧ config.dns_servers c = strip <$> pieces
    ∧ length (config.dns_servers c) = S (count_char "," raw)
    ∧ Forall stripped (config.dns_servers c).
Proof.
  unfold load_config. intros Hc. repeat case_match; try done.
  injection Hc as <-. simpl.
  match goal with
  | H : config_get E config_file "DHCP" "dns_servers" = Ok ?r |- _ =>
      exists r, (split "," r)
  end.
  split_and!.
  - done.
  - apply (join_split ","%char).
  - apply split_no_separator.
  - done.
  - by rewrite length_fmap, split_length.
  - apply Forall_fmap, Forall_forall. intros x _. apply strip_stripped.
Qed.

(** The configuration of the scenario: one name server. *)
Lemma load_config_dns_list_witness :
  ∃ raw pieces,
    config_get Bench.E50 "config.ini" "DHCP" "dns_servers" = Ok raw
    ∧ join "," pieces = raw
    ∧ Forall (λ x, count_char "," x = 0) pieces
    ∧ config.dns_servers
        (config.Build "eth0" "192.168.50.0/29" "255.255.255.248"
           "192.168.50.1" ["8.8.8.8"] 300) = strip <$> pieces
    ∧ length (config.dns_servers
                (config.Build "eth0" "192.168.50.0/29" "255.255.255.248"
                   "192.168.50.1" ["8.8.8.8"] 300))
      = S (count_char "," raw)
    ∧ Forall stripped
        (config.dns_servers
           (config.Build "eth0" "192.168.50.0/29" "255.255.255.248"
              "192.168.50.1" ["8.8.8.8"] 300)).
Proof.
  apply (load_config_dns_list Bench.E50 "config.ini"). reflexivity.
Defined.

Example dns_list_with_blanks_and_a_trailing_comma :
  strip <$> split "," " 8.8.8.8 ,1.1.1.1, " = ["8.8.8.8"; "1.1.1.1"; ""].
Proof. reflexivity. Qed.

(** X10.  [load_config] raises exactly when reading the file or one of its
    six lookups raises, and what it raises is the exception of the first of
    them in the order: the file, then interface, ip_pool, subnet_mask,
    gateway, dns_servers, lease_time.  The main block then sends nothing,
    logs that one error and exits with code 1. *)
Theorem load_config_raises_the_first_fault (E : Platform)
    (config_file : string) :
  (∀ e, load_config E config_file = Raise e ↔
        match config_read E config_file with
        | Some e' => Some e'
        | None => head (omap (lookup_fault E config_file) config_keys)
        end = Some e)
  ∧ (∀ e events,
       load_config E config_file = Raise e → is_Exception e = true →
       main E config_file events
       = Outcome (Exit 1) [] [(ERROR, "Error: " +:+ exn_str e)]).
Proof.
  split.
  - intros e. unfold load_config, config_keys, lookup_fault. simpl.
    destruct (config_read E config_file); [naive_solver|].
    repeat (match goal with
            | |- context [config_get E config_file "DHCP" ?k] =>
                destruct (config_get E config_file "DHCP" k); simpl
            | |- context [config_getint E config_file "DHCP" ?k] =>
                destruct (config_getint E config_file "DHCP" k); simpl
            end; [|naive_solver]).
    naive_solver.
  - intros e events He Hexc. unfold main, except_Exception.
    by rewrite He, Hexc.
Qed.

(** ** Further properties: logs and starvation *)

Section Growth.
Variable E : Platform.

Lemma discover_grows p w :
  ∃ l sent, log (handle_dhcp_discover E p w).2 = log w ++ l
            ∧ wire (handle_dhcp_discover E p w).2 = wire w ++ sent.
Proof.
  assert (∃ l sent, log w = log w ++ l ∧ wire w = wire w ++ sent) as Hsame.
  { exists [], []. by rewrite !app_nil_r. }
  destruct (dhcp_type_is p 1) as [[]|] eqn:Hty;
    [|rewrite discover_skip; [done | by rewrite Hty]..].
  destruct (layer_Ether p) as [e|] eqn:He; cycle 1.
  { unfold handle_dhcp_discover, bind, lift, getlayer. by rewrite Hty, He. }
  destruct (layer_BOOTP p) as [b|] eqn:Hb; cycle 1.
  { unfold handle_dhcp_discover, bind, lift, getlayer.
    by rewrite Hty, He, Hb. }
  assert (dhcp_frame 1 (Ether.src e) (BOOTP.xid b) p) as Hp.
  { split; [by apply dhcp_type_is_true|]. by rewrite He, Hb. }
  destruct (available_ips (self w)) as [|ip rest] eqn:Hpool.
  { rewrite (discover_exhausted E _ _ _ _ Hp Hpool). simpl.
    eexists _, []. split; [done | by rewrite app_nil_r]. }
  rewrite (discover_allocates E _ _ _ _ _ _ Hp Hpool).
  destruct (prepared E _ _ _ _ _) as [f|];
    [destruct (sendp_fault E (wire w) f)|]; simpl.
  - eexists _, []. split; [done | by rewrite app_nil_r].
  - eexists _, _. split; done.
  - eexists _, []. split; [done | by rewrite app_nil_r].
Qed.

Lemma request_grows p w :
  ∃ l sent, log (handle_dhcp_request E p w).2 = log w ++ l
            ∧ wire (handle_dhcp_request E p w).2 = wire w ++ sent.
Proof.
  assert (∃ l sent, log w = log w ++ l ∧ wire w = wire w ++ sent) as Hsame.
  { exists [], []. by rewrite !app_nil_r. }
  destruct (dhcp_type_is p 3) as [[]|] eqn:Hty;
    [|rewrite request_skip; [done | by rewrite Hty]..].
  destruct (layer_Ether p) as [e|] eqn:He; cycle 1.
  { unfold handle_dhcp_request, bind, lift, getlayer. by rewrite Hty, He. }
  destruct (layer_BOOTP p) as [b|] eqn:Hb; cycle 1.
  { unfold handle_dhcp_request, bind, lift, getlayer.
    by rewrite Hty, He, Hb. }
  assert (dhcp_frame 3 (Ether.src e) (BOOTP.xid b) p) as Hp.
  { split; [by apply dhcp_type_is_true|]. by rewrite He, Hb. }
  destruct (allocated_ips (self w) !! Ether.src e) as [ip|] eqn:Hm; cycle 1.
  { by rewrite (request_unknown E _ _ _ _ Hp Hm). }
  rewrite (request_known E _ _ _ _ _ Hp Hm).
  destruct (prepared E _ _ _ _ _) as [f|];
    [destruct (sendp_fault E (wire w) f)|]; simpl.
  - eexists _, []. split; [done | by rewrite app_nil_r].
  - eexists _, _. split; done.
  - eexists _, []. split; [done | by rewrite app_nil_r].
Qed.

Lemma process_grows p w :
  ∃ l sent, log (process_packet E p w).2 = log w ++ l
            ∧ wire (process_packet E p w).2 = wire w ++ sent.
Proof.
  destruct (process_packet_cases E p w) as [->|[->| ->]].
  - apply discover_grows.
  - apply request_grows.
  - exists [], []. by rewrite !app_nil_r.
Qed.

Lemma sniff_grows events w :
  ∃ l sent, log (sniff E (process_packet E) events w).2 = log w ++ l
            ∧ wire (sniff E (process_packet E) events w).2 = wire w ++ sent.
Proof.
  revert w. induction events as [|[p|e] events IH]; intros w.
  - exists [], []. by rewrite !app_nil_r.
  - rewrite sniff_cons.
    destruct (process_grows p w) as (l1 & s1 & Hl1 & Hs1).
    destruct (process_packet E p w) as [[[]|e] w1]; simpl in *.
    + destruct (IH w1) as (l2 & s2 & -> & ->).
      exists (l1 ++ l2), (s1 ++ s2). by rewrite Hl1, Hs1, !app_assoc.
    + exists l1, s1. by destruct (callback_fault_escapes E e).
  - exists [], []. simpl.
    destruct (capture_fault_escapes E e); by rewrite !app_nil_r.
Qed.

End Growth.

(** X12.  [start] writes its six summary lines first, before any frame is
    looked at; the capture loop and the handlers then only append: no log
    line and no frame already sent is ever removed or changed, whether the
    loop ends or raises. *)
Theorem start_logs_the_summary_first (E : Platform)
    (events : list capture) (w : world) :
  ∃ l sent,
    log (start E events w).2 = log w ++ summary (self w) ++ l
    ∧ wire (start E events w).2 = wire w ++ sent.
Proof.
  rewrite start_unfold.
  destruct (sniff_grows E events
              (World (self w) (wire w) (log w ++ summary (self w))))
    as (l & sent & Hl & Hs).
  exists l, sent. rewrite Hl, Hs. simpl. by rewrite <- app_assoc.
Qed.

Lemma one_client_run (E : Platform) (s : t) (mac : string)
    (ds : list Packet) :
  Forall (λ d, ∃ x, dhcp_frame 1 mac x d) ds →
  reliable E s ds →
  ∀ w, config_of (self w) = config_of s →
  ∃ w',
    sniff E (process_packet E) (Captured <$> ds) w = (Ok tt, w')
    ∧ available_ips (self w') = drop (length ds) (available_ips (self w))
    ∧ allocated_ips (self w')
      = match last (take (length ds) (available_ips (self w))) with
        | Some ip => <[mac := ip]> (allocated_ips (self w))
        | None => allocated_ips (self w)
        end.
Proof.
  induction ds as [|d ds IH]; intros Hds Hrel w Hcfg.
  { exists w. by rewrite drop_0. }
  apply Forall_cons in Hds as [(x & Hd) Hds].
  assert (reliable E s ds) as Hrel'.
  { destruct Hrel as (? & ? & Hmac & ?). split_and!; try done.
    intros p e Hin. apply Hmac. by right. }
  rewrite fmap_cons, sniff_cons, (process_packet_typed E 1 mac x d w Hd).
  simpl. destruct (available_ips (self w)) as [|ip rest] eqn:Hpool.
  - rewrite (discover_exhausted E mac x d w Hd Hpool).
    edestruct (IH Hds Hrel') as (w' & Hrun & Hav & Htab);
      [|exists w'; rewrite Hrun]; [done|].
    cbn [self] in Hav, Htab. rewrite Hpool in Hav, Htab.
    rewrite drop_nil in Hav. rewrite take_nil in Htab. done.
  - rewrite (discover_allocates E mac x d w ip rest Hd Hpool). simpl.
    destruct (prepared_reliable E s (d :: ds) d mac x ip "offer" Hrel)
      as [f Hf]; [by left|by destruct Hd as (_ & ? & _)|].
    rewrite (prepared_config E _ s) by by rewrite <- Hcfg.
    rewrite Hf. destruct Hrel as (_ & _ & _ & ->).
    edestruct (IH Hds Hrel') as (w' & Hrun & Hav & Htab);
      [|exists w'; rewrite Hrun]; [by rewrite <- Hcfg|].
    cbn [self available_ips allocated_ips allocate set_allocated_ips
         set_available_ips] in Hav, Htab.
    split_and!; [done..|]. rewrite Htab.
    change (take (length (d :: ds)) (ip :: rest))
      with (ip :: take (length ds) rest).
    rewrite last_cons.
    destruct (last (take (length ds) rest)); [|done].
    by rewrite insert_insert_eq.
Qed.

(** X13.  One client is enough to empty the pool.  On a platform whose calls
    do not fail, as many Discovers from a single hardware address as the
    pool has addresses leave the pool empty while the table holds a single
    entry, the last address of the pool for that client: every other
    address is taken and recorded for nobody. *)
Theorem one_client_empties_the_pool (E : Platform)
    (iface cidr mask gw : string) (dns : list string) (lease : Z)
    (s : t) (mac : string) (ds : list Packet) :
  __init__ E iface cidr mask gw dns lease = Ok s →
  Forall (λ d, ∃ x, dhcp_frame 1 mac x d) ds →
  reliable E s ds →
  (length (available_ips s) ≤ length ds)%nat →
  available_ips s ≠ [] →
  ∃ w' ip,
    sniff E (process_packet E) (Captured <$> ds) (World s [] []) = (Ok tt, w')
    ∧ available_ips (self w') = []
    ∧ last (available_ips s) = Some ip
    ∧ allocated_ips (self w') = {[mac := ip]}.
Proof.
  intros Hinit Hds Hrel Hlen Hne.
  destruct (one_client_run E s mac ds Hds Hrel (World s [] []) eq_refl)
    as (w' & Hrun & Hav & Htab).
  cbn [self] in Hav, Htab.
  rewrite drop_ge in Hav by done. rewrite take_ge in Htab by done.
  destruct (last (available_ips s)) as [ip|] eqn:Hlast;
    [|by apply last_None in Hlast].
  exists w', ip. split_and!; [done..|]. rewrite Htab.
  apply init_Ok in Hinit as (? & ? & _ & _ & _ & ->). simpl.
  by rewrite insert_empty.
Qed.

(** Six Discovers from the first client on the pool of six. *)
Lemma one_client_empties_the_pool_witness :
  ∃ w' ip,
    sniff Bench.E50 (process_packet Bench.E50)
      (Captured <$> replicate 6 Bench.discover_1) (World Bench.server_50 [] [])
    = (Ok tt, w')
    ∧ available_ips (self w') = []
    ∧ last (available_ips Bench.server_50) = Some ip
    ∧ allocated_ips (self w') = {[Bench.client_1 := ip]}.
Proof.
  apply (one_client_empties_the_pool Bench.E50 "eth0" "192.168.50.0/29"
           "255.255.255.248" "192.168.50.1" ["8.8.8.8"] 300).
  - reflexivity.
  - repeat constructor; eexists; apply dhcp_frame_inbound.
  - apply reliable_E50.
    + repeat constructor. by eexists.
    + repeat constructor; intros e [= <-]; by eexists.
  - simpl. lia.
  - done.
Defined.
